(** * The 24-game reducer: a shallow embedding of [src/lib/solve_24.cpp]
      and [src/solve_24.cpp], and the properties of its three searches.

    The C++ class [Solution] searches, for a vector of numbers and a target,
    the ways of combining the numbers with [+ * - /] that reach the target.
    The numbers are IEEE-754 binary64 [double]s; they are embedded as Rocq's
    primitive floats, whose operations are those of the hardware.  The
    stateful part (the members [solutions] and [first_solution], and the
    lines written to [cout]) is threaded explicitly through a small state
    monad, which also carries the two ways a run of the model can go wrong:
    undefined behaviour of a vector operation, and a recursion deeper than the
    bound the model was given. *)

From Stdlib Require Import String Ascii DecimalString.
From Stdlib Require Import List ZArith Bool Arith Lia Permutation.
From Stdlib Require Import Floats.
Import ListNotations.

Set Warnings "-inexact-float".
Open Scope list_scope.

(** ** Doubles *)

Module Double.

Abbreviation double := float (only parsing).

(** [fabs] of <cmath>. *)
Definition fabs (x : double) : double := PrimFloat.abs x.

(** The literal [1e-8] of the source: the nearest binary64 value. *)
Definition epsilon : double := 1e-8%float.

(** [fabs(x - target) < 1e-8], the test of the three base cases. *)
Definition close (x target : double) : bool :=
  PrimFloat.ltb (fabs (PrimFloat.sub x target)) epsilon.

(** The conversion [int -> double] done by
    [vector<double> values(numbers.begin(), numbers.end())].  A 32-bit
    [int] is below 2^53 in magnitude, so the conversion is exact. *)
Definition of_int (z : Z) : double :=
  if (z <? 0)%Z
  then PrimFloat.opp (PrimFloat.of_uint63 (Uint63.of_Z (- z)))
  else PrimFloat.of_uint63 (Uint63.of_Z z).

(** *** [std::to_string(double)]

    The standard library prints a double as [printf("%f")] does: the exact
    binary value rounded to six decimals (to nearest, ties to even), the
    integer part in full.  Infinities print as [inf] and [-inf].  Rocq's
    floats have a single NaN, so the sign that a platform may print in
    front of [nan] is not modelled. *)

Definition digit (d : Z) : ascii := ascii_of_nat (48 + Z.to_nat d).

Fixpoint padded (width : nat) (n : Z) (acc : string) : string :=
  match width with
  | O => acc
  | S w => padded w (n / 10)%Z (String (digit (n mod 10)%Z) acc)
  end.

Definition decimal (n : Z) : string :=
  NilZero.string_of_uint (N.to_uint (Z.to_N n)).

(** [m * 2^e * 10^6] rounded to an integer, ties to even. *)
Definition micro (m : positive) (e : Z) : Z :=
  match e with
  | Zneg p =>
      let d := (2 ^ Zpos p)%Z in
      let n := (Zpos m * 1000000)%Z in
      let q := (n / d)%Z in
      let r := (n mod d)%Z in
      match (2 * r ?= d)%Z with
      | Lt => q
      | Gt => (q + 1)%Z
      | Eq => if Z.even q then q else (q + 1)%Z
      end
  | _ => (Zpos m * 2 ^ e * 1000000)%Z
  end.

Definition fixed6 (neg : bool) (n : Z) : string :=
  ((if neg then "-" else EmptyString) ++ decimal (n / 1000000)%Z ++ "."
     ++ padded 6 (n mod 1000000)%Z EmptyString)%string.

Definition to_string (x : double) : string :=
  match Prim2SF x with
  | S754_nan => "nan"%string
  | S754_infinity s => if s then "-inf"%string else "inf"%string
  | S754_zero s => fixed6 s 0
  | S754_finite s m e => fixed6 s (micro m e)
  end.

End Double.
Import Double.

(** ** The object and the world it runs in *)

(** A [Trace] is the [vector<string>] the searches build. *)
Definition Trace := list string.

(** The data members of [class Solution] ([src/lib/solve_24.cpp], lines
    7-13).  [numbers] holds [int]s. *)
Record Solution : Type := mkSolution {
  solutions : list Trace;
  first_solution : Trace;
  max_generated : Z;
  numbers : list Z;
  target : double
}.

(** What a method can change: the object it is called on, and the lines
    written to [cout] so far (each [cout << s << endl] adds the line [s]). *)
Record world : Type := mkWorld {
  this : Solution;
  cout : list string
}.

Definition set_first_solution (t : Trace) (w : world) : world :=
  let s := this w in
  mkWorld (mkSolution (solutions s) t (max_generated s) (numbers s) (target s))
          (cout w).

Definition push_solution (t : Trace) (w : world) : world :=
  let s := this w in
  mkWorld (mkSolution (solutions s ++ [t]) (first_solution s) (max_generated s)
                      (numbers s) (target s))
          (cout w).

Definition write_lines (ls : list string) (w : world) : world :=
  mkWorld (this w) (cout w ++ ls).

(** ** Outcomes and the monad of methods *)

Inductive outcome (A : Type) : Type :=
| Returns (a : A)
| Undefined          (* undefined behaviour of a vector operation *)
| TooDeep.           (* the recursion went below the depth the model allows *)

Arguments Returns {A} a.
Arguments Undefined {A}.
Arguments TooDeep {A}.

Definition M (A : Type) : Type := world -> outcome (A * world).

Definition ret {A} (a : A) : M A := fun w => Returns (a, w).

Definition bind {A B} (c : M A) (k : A -> M B) : M B :=
  fun w =>
    match c w with
    | Returns (a, w') => k a w'
    | Undefined => Undefined
    | TooDeep => TooDeep
    end.

Definition undefined {A} : M A := fun _ => Undefined.
Definition too_deep {A} : M A := fun _ => TooDeep.
Definition modify (f : world -> world) : M unit := fun w => Returns (tt, f w).
Definition gets {A} (f : world -> A) : M A := fun w => Returns (f w, w).

Declare Scope method_scope.
Delimit Scope method_scope with method.
Notation "x <- c ;; k" := (bind c (fun x => k))
  (at level 61, c at next level, right associativity) : method_scope.
Notation "c ;; k" := (bind c (fun _ => k))
  (at level 61, right associativity) : method_scope.
Open Scope method_scope.

(** ** [std::vector] *)

Module Vector.

Definition size {A} (v : list A) : nat := length v.

(** [v[i]]: undefined behaviour out of range. *)
Definition at_ {A} (v : list A) (i : nat) : M A :=
  match nth_error v i with
  | Some x => ret x
  | None => undefined
  end.

Definition push_back {A} (v : list A) (x : A) : list A := v ++ [x].

(** [v.pop_back()]: undefined behaviour on an empty vector. *)
Definition pop_back {A} (v : list A) : M (list A) :=
  match v with
  | [] => undefined
  | _ => ret (removelast v)
  end.

(** [v.back() = x]: undefined behaviour on an empty vector. *)
Definition set_back {A} (v : list A) (x : A) : M (list A) :=
  match v with
  | [] => undefined
  | _ => ret (removelast v ++ [x])
  end.

End Vector.
Import Vector.

(** ** Loops *)

(** [for (k = lo; k < hi; ++k) body], the body updating a local [acc]. *)
Fixpoint for_fold {S} (ks : list nat) (body : nat -> S -> M S) (acc : S) : M S :=
  match ks with
  | [] => ret acc
  | k :: ks' => acc' <- body k acc ;; for_fold ks' body acc'
  end.

(** A loop whose body may [return r] from the enclosing function
    ([Some r]) or fall through to the next iteration ([None]). *)
Fixpoint for_return {R} (ks : list nat) (body : nat -> M (option R)) : M (option R) :=
  match ks with
  | [] => ret None
  | k :: ks' =>
      r <- body k ;;
      match r with
      | Some v => ret (Some v)
      | None => for_return ks' body
      end
  end.

(** A loop whose body never returns from the enclosing function. *)
Fixpoint for_each (ks : list nat) (body : nat -> M unit) : M unit :=
  match ks with
  | [] => ret tt
  | k :: ks' => body k ;; for_each ks' body
  end.

(** The indices [lo, lo+1, ..., hi-1] a counting loop visits.  The counters
    are C++ [int]s compared with a [size_t]; the vectors of the search are
    far shorter than 2^31, so the counters are taken in [nat]. *)
Definition range (lo hi : nat) : list nat := seq lo (hi - lo).

(** ** The searches of [src/lib/solve_24.cpp]

    Each of the three recursive functions is written once, as in the source,
    with its recursive calls going through the parameter [self]; the knot is
    tied afterwards, by the depth of the recursion. *)

Module Reducer.

(** [print_output_cpp] (lines 65-68). *)
Definition print_output_cpp (output : Trace) : M unit :=
  for_each (range 0 (size output)) (fun i =>
    s <- at_ output i ;;
    modify (write_lines [s])).

(** Lines 77-79, 136-138 and 231-233: the numbers at the positions other
    than [i] and [j], in order. *)
Definition residual_loop (nums : list double) (i j : nat) : M (list double) :=
  for_fold (range 0 (size nums)) (fun k new_nums =>
    if negb (k =? i) && negb (k =? j)
    then x <- at_ nums k ;; ret (push_back new_nums x)
    else ret new_nums) [].

(** [solution_exists] (lines 70-120). *)
Definition solution_exists_body
    (self : list double -> double -> M bool)
    (nums : list double) (target : double) : M bool :=
  if size nums =? 1 then
    x <- at_ nums 0 ;;
    ret ((fabs (x - target) <? 1e-8)%float)
  else
    r <- for_return (range 0 (size nums - 1)) (fun i =>
      for_return (range (i + 1) (size nums)) (fun j =>
        new_nums <- residual_loop nums i j ;;
        ni <- at_ nums i ;;
        nj <- at_ nums j ;;
        let val1 := to_string ni in
        let val2 := to_string nj in
        (* addition i, j *)
        let val := (ni + nj)%float in
        let new_nums := push_back new_nums val in
        ok <- self new_nums target ;;
        if ok then ret (Some true) else
        let val := (ni * nj)%float in
        new_nums <- set_back new_nums val ;;
        ok <- self new_nums target ;;
        if ok then ret (Some true) else
        (* subtraction i, j *)
        let val := (ni - nj)%float in
        new_nums <- set_back new_nums val ;;
        ok <- self new_nums target ;;
        if ok then ret (Some true) else
        (* division i, j *)
        let val := (ni / nj)%float in
        new_nums <- set_back new_nums val ;;
        ok <- self new_nums target ;;
        if ok then ret (Some true) else
        (* subtraction j, i *)
        let val := (nj - ni)%float in
        new_nums <- set_back new_nums val ;;
        ok <- self new_nums target ;;
        if ok then ret (Some true) else
        (* division j, i *)
        let val := (nj / ni)%float in
        new_nums <- set_back new_nums val ;;
        ok <- self new_nums target ;;
        if ok then ret (Some true) else
        ret None)) ;;
    match r with
    | Some b => ret b
    | None => ret false
    end.

(** [solve_first] (lines 121-217).  [found] is what the base case does
    with the trace of a success: lines 124-125 here, line 23 alone in
    [solve] of [src/solve_24.cpp], whose text is otherwise the same. *)
Definition solve_first_body
    (found : Trace -> M unit)
    (self : list double -> Trace -> double -> M bool)
    (nums : list double) (prev_ops : Trace) (target : double) : M bool :=
  if size nums =? 1 then
    x <- at_ nums 0 ;;
    if (fabs (x - target) <? 1e-8)%float
    then found prev_ops ;; ret true
    else ret false
  else
    r <- for_return (range 0 (size nums - 1)) (fun i =>
      for_return (range (i + 1) (size nums)) (fun j =>
        let output := prev_ops in
        new_nums <- residual_loop nums i j ;;
        ni <- at_ nums i ;;
        nj <- at_ nums j ;;
        let val1 := to_string ni in
        let val2 := to_string nj in
        let output := push_back output val1 in
        let output := push_back output val2 in
        (* addition i, j *)
        let val := (ni + nj)%float in
        let input := to_string val in
        let output := push_back output input in
        let output := push_back output "+"%string in
        let new_nums := push_back new_nums val in
        ok <- self new_nums output target ;;
        if ok then ret (Some true) else
        output <- pop_back output ;;
        output <- pop_back output ;;
        let val := (ni * nj)%float in
        let input := to_string val in
        let output := push_back output input in
        let output := push_back output "*"%string in
        new_nums <- set_back new_nums val ;;
        ok <- self new_nums output target ;;
        if ok then ret (Some true) else
        (* subtraction i, j *)
        output <- pop_back output ;;
        output <- pop_back output ;;
        let val := (ni - nj)%float in
        let input := to_string val in
        let output := push_back output input in
        let output := push_back output "-"%string in
        new_nums <- set_back new_nums val ;;
        ok <- self new_nums output target ;;
        if ok then ret (Some true) else
        (* division i, j *)
        output <- pop_back output ;;
        output <- pop_back output ;;
        let val := (ni / nj)%float in
        let input := to_string val in
        let output := push_back output (to_string val) in
        let output := push_back output "/"%string in
        new_nums <- set_back new_nums val ;;
        ok <- self new_nums output target ;;
        if ok then ret (Some true) else
        output <- pop_back output ;;
        output <- pop_back output ;;
        output <- pop_back output ;;
        output <- pop_back output ;;
        let output := push_back output val2 in
        let output := push_back output val1 in
        (* subtraction j, i *)
        let val := (nj - ni)%float in
        let input := to_string val in
        let output := push_back output input in
        let output := push_back output "-"%string in
        new_nums <- set_back new_nums val ;;
        ok <- self new_nums output target ;;
        if ok then ret (Some true) else
        (* division j, i *)
        output <- pop_back output ;;
        output <- pop_back output ;;
        let val := (nj / ni)%float in
        let input := to_string val in
        let output := push_back output input in
        let output := push_back output "/"%string in
        new_nums <- set_back new_nums val ;;
        ok <- self new_nums output target ;;
        if ok then ret (Some true) else
        output <- pop_back output ;;
        output <- pop_back output ;;
        output <- pop_back output ;;
        output <- pop_back output ;;
        ret None)) ;;
    match r with
    | Some b => ret b
    | None => ret false
    end.

(** [solve_all] (lines 218-300).  The base case does not return: the loops
    follow it, and run over no pair when one number is left. *)
Definition solve_all_body
    (self : list double -> Trace -> double -> M unit)
    (nums : list double) (prev_ops : Trace) (target : double) : M unit :=
  (if size nums =? 1 then
     x <- at_ nums 0 ;;
     if (fabs (x - target) <? 1e-8)%float
     then modify (push_solution prev_ops)
     else ret tt
   else ret tt) ;;
  for_each (range 0 (size nums - 1)) (fun i =>
    for_each (range (i + 1) (size nums)) (fun j =>
      let output := prev_ops in
      new_nums <- residual_loop nums i j ;;
      ni <- at_ nums i ;;
      nj <- at_ nums j ;;
      let val1 := to_string ni in
      let val2 := to_string nj in
      let output := push_back output val1 in
      let output := push_back output val2 in
      (* addition i, j *)
      let val := (ni + nj)%float in
      let input := to_string val in
      let output := push_back output input in
      let output := push_back output "+"%string in
      let new_nums := push_back new_nums val in
      self new_nums output target ;;
      output <- pop_back output ;;
      output <- pop_back output ;;
      let val := (ni * nj)%float in
      let input := to_string val in
      let output := push_back output input in
      let output := push_back output "*"%string in
      new_nums <- set_back new_nums val ;;
      self new_nums output target ;;
      (* subtraction i, j *)
      output <- pop_back output ;;
      output <- pop_back output ;;
      let val := (ni - nj)%float in
      let input := to_string val in
      let output := push_back output input in
      let output := push_back output "-"%string in
      new_nums <- set_back new_nums val ;;
      self new_nums output target ;;
      (* division i, j *)
      output <- pop_back output ;;
      output <- pop_back output ;;
      let val := (ni / nj)%float in
      let input := to_string val in
      let output := push_back output (to_string val) in
      let output := push_back output "/"%string in
      new_nums <- set_back new_nums val ;;
      self new_nums output target ;;
      output <- pop_back output ;;
      output <- pop_back output ;;
      output <- pop_back output ;;
      output <- pop_back output ;;
      let output := push_back output val2 in
      let output := push_back output val1 in
      (* subtraction j, i *)
      let val := (nj - ni)%float in
      let input := to_string val in
      let output := push_back output input in
      let output := push_back output "-"%string in
      new_nums <- set_back new_nums val ;;
      self new_nums output target ;;
      (* division j, i *)
      output <- pop_back output ;;
      output <- pop_back output ;;
      let val := (nj / ni)%float in
      let input := to_string val in
      let output := push_back output input in
      let output := push_back output "/"%string in
      new_nums <- set_back new_nums val ;;
      self new_nums output target ;;
      output <- pop_back output ;;
      output <- pop_back output ;;
      output <- pop_back output ;;
      output <- pop_back output ;;
      ret tt)).

(** *** Tying the knot

    [f_at depth] is the function [f] allowed [depth] nested recursive calls
    below the outermost one; a call beyond that ends the run in [TooDeep].
    The functions themselves take the depth their argument needs: one less
    than its length. *)

Fixpoint solution_exists_at (depth : nat) : list double -> double -> M bool :=
  solution_exists_body
    (match depth with
     | O => fun _ _ => too_deep
     | S d => solution_exists_at d
     end).

Fixpoint solve_first_at (found : Trace -> M unit) (depth : nat)
  : list double -> Trace -> double -> M bool :=
  solve_first_body found
    (match depth with
     | O => fun _ _ _ => too_deep
     | S d => solve_first_at found d
     end).

Fixpoint solve_all_at (depth : nat) : list double -> Trace -> double -> M unit :=
  solve_all_body
    (match depth with
     | O => fun _ _ _ => too_deep
     | S d => solve_all_at d
     end).

(** Lines 124-125. *)
Definition found_first (prev_ops : Trace) : M unit :=
  print_output_cpp prev_ops ;;
  modify (set_first_solution prev_ops).

Definition solution_exists (nums : list double) (target : double) : M bool :=
  solution_exists_at (size nums - 1) nums target.

Definition solve_first (nums : list double) (prev_ops : Trace) (target : double)
  : M bool :=
  solve_first_at found_first (size nums - 1) nums prev_ops target.

Definition solve_all (nums : list double) (prev_ops : Trace) (target : double)
  : M unit :=
  solve_all_at (size nums - 1) nums prev_ops target.

(** *** The public members (lines 14-63) *)

Definition Solution1 (arg1 : list Z) : Solution :=
  mkSolution [] [] 1024 arg1 24%float.

Definition Solution2 (arg1 : list Z) (arg2 : double) : Solution :=
  mkSolution [] [] 1024 arg1 arg2.

Definition Solution3 (arg1 : list Z) (arg2 : double) (arg3 : Z) : Solution :=
  mkSolution [] [] arg3 arg1 arg2.

Definition get_all_solutions : M (list Trace) :=
  gets (fun w => solutions (this w)).

Definition get_first_solution : M Trace :=
  gets (fun w => first_solution (this w)).

Definition get_max_generated : M Z :=
  gets (fun w => max_generated (this w)).

Definition set_max_generated (arg1 : Z) : M unit :=
  modify (fun w =>
    let s := this w in
    mkWorld (mkSolution (solutions s) (first_solution s) arg1 (numbers s) (target s))
            (cout w)).

Definition is_valid_input : M bool :=
  s <- gets this ;;
  let values := map of_int (numbers s) in
  solution_exists values (target s).

Definition find_first_solution : M bool :=
  s <- gets this ;;
  let values := map of_int (numbers s) in
  let output := [] in
  solve_first values output (target s).

(** Line 52 is the expression statement [solutions;]: the member is read
    and the value dropped. *)
Definition find_all_solutions : M unit :=
  gets (fun w => solutions (this w)) ;;
  s <- gets this ;;
  let values := map of_int (numbers s) in
  let output := [] in
  solve_all values output (target s).

Definition print_solutions : M unit :=
  sols <- gets (fun w => solutions (this w)) ;;
  for_each (range 0 (size sols)) (fun i =>
    modify (write_lines ["Solution:"%string]) ;;
    si <- at_ sols i ;;
    print_output_cpp si).

(** [main] (lines 305-321): the object is built in [main] itself;
    [cout << donkey << endl] writes the decimal digits of the [int]. *)
Definition main : M Z :=
  fun w =>
    let test := [5; 5; 3; 2]%Z in
    let practice_target := 24%float in
    let stupid := Solution2 test practice_target in
    (lonkey <- find_first_solution ;;
     let donkey := (if lonkey then 1 else 0)%Z in
     modify (write_lines [decimal donkey]) ;;
     ret 1%Z)
      (mkWorld stupid (cout w)).

End Reducer.

(** ** [src/solve_24.cpp]

    The class of this file has one member, [solution], that nothing reads or
    writes; its methods run in the same monad and leave [this] alone. *)

Module Judge.

(** [solve] (lines 20-115): on a success it prints the trace (line 23). *)
Definition solve (nums : list double) (prev_ops : Trace) (target : double)
  : M bool :=
  Reducer.solve_first_at Reducer.print_output_cpp (size nums - 1)
                         nums prev_ops target.

Definition judgePoint24 (nums : list Z) (target : double) : M bool :=
  let values := map of_int nums in
  let output := [] in
  solve values output target.

(** [main] (lines 117-124). *)
Definition main : M Z :=
  let test := [19; 34; 23; 1; 4; 5; 24]%Z in
  let practice_target := 24%float in
  ok <- judgePoint24 test practice_target ;;
  let donkey := (if ok then 1 else 0)%Z in
  modify (write_lines [decimal donkey]) ;;
  ret donkey.

End Judge.

(** ** The enumeration of reduction paths, as the specification words it

    Not the code: the reduction steps and their order as sections 3 and 4.2
    of the specification describe them, to compare the searches with.  The
    specification leaves the text of the tokens open; they are the code's:
    each value printed by [to_string], the operands in the order the
    operation takes them. *)

Module Enumeration.

Inductive Operation : Type :=
| Add | Multiply | SubtractForward | DivideForward
| SubtractReverse | DivideReverse.

(** The order in which the operations are tried. *)
Definition operations : list Operation :=
  [Add; Multiply; SubtractForward; DivideForward; SubtractReverse; DivideReverse].

(** The operation applied to the pair [(a, b)] drawn at positions [i < j]. *)
Definition apply (op : Operation) (a b : double) : double :=
  match op with
  | Add => a + b
  | Multiply => a * b
  | SubtractForward => a - b
  | DivideForward => a / b
  | SubtractReverse => b - a
  | DivideReverse => b / a
  end%float.

Definition symbol (op : Operation) : string :=
  match op with
  | Add => "+"
  | Multiply => "*"
  | SubtractForward | SubtractReverse => "-"
  | DivideForward | DivideReverse => "/"
  end%string.

(** The four tokens of a step: the operands in the order the operation
    takes them, the result, the operator symbol. *)
Definition tokens (op : Operation) (a b : double) : Trace :=
  match op with
  | SubtractReverse | DivideReverse =>
      [to_string b; to_string a; to_string (apply op a b); symbol op]
  | _ =>
      [to_string a; to_string b; to_string (apply op a b); symbol op]
  end.

(** The values of [l], whose first position is numbered [k], at the
    positions other than [i] and [j]. *)
Fixpoint others (k : nat) (l : list double) (i j : nat) : list double :=
  match l with
  | [] => []
  | x :: l' =>
      if negb (k =? i) && negb (k =? j)
      then x :: others (S k) l' i j
      else others (S k) l' i j
  end.

(** A reduction step: the values at [i] and [j] leave the sequence, the
    result of the operation is appended. *)
Definition reduce (nums : list double) (i j : nat) (op : Operation) : list double :=
  others 0 nums i j ++ [apply op (nth i nums 0%float) (nth j nums 0%float)].

Definition step_tokens (nums : list double) (i j : nat) (op : Operation) : Trace :=
  tokens op (nth i nums 0%float) (nth j nums 0%float).

Definition extend (pre : Trace) (p : Trace * double) : Trace * double :=
  (pre ++ fst p, snd p).

(** Every reduction path of [nums], with its trace and the value it ends
    in: positions [i] ascending, then [j > i] ascending, then the operations
    in their order, then the paths of the reduced sequence. *)
Fixpoint paths (depth : nat) (nums : list double) : list (Trace * double) :=
  match nums with
  | [v] => [([], v)]
  | _ =>
      match depth with
      | O => []
      | S d =>
          flat_map (fun i =>
            flat_map (fun j =>
              flat_map (fun op =>
                map (extend (step_tokens nums i j op))
                    (paths d (reduce nums i j op)))
                operations)
              (range (i + 1) (length nums)))
            (range 0 (length nums - 1))
      end
  end.

Definition all_paths (nums : list double) : list (Trace * double) :=
  paths (length nums - 1) nums.

(** A path reaches the target when its last value is within [epsilon]. *)
Definition reaches (target : double) (p : Trace * double) : bool :=
  close (snd p) target.

(** The three modes of the specification's Reducer. *)
Definition spec_exists (nums : list double) (target : double) : bool :=
  existsb (reaches target) (all_paths nums).

Definition spec_find_first (nums : list double) (target : double) : option Trace :=
  option_map fst (find (reaches target) (all_paths nums)).

Definition spec_find_all (nums : list double) (target : double) : list Trace :=
  map fst (filter (reaches target) (all_paths nums)).

End Enumeration.
Import Enumeration.

(** * The notions the properties are stated with *)

(** ** Changes of the world *)

(** The world after the traces [ts] are appended to [solutions], in order. *)
Definition record (ts : list Trace) (w : world) : world :=
  fold_left (fun w t => push_solution t w) ts w.

(** What lines 124-125 do to the world. *)
Definition commit_first (tr : Trace) (w : world) : world :=
  set_first_solution tr (write_lines tr w).

(** What the existence check does to the world with a success: nothing. *)
Definition keep (_ : Trace) (w : world) : world := w.

(** A world with a freshly constructed object and nothing printed. *)
Definition fresh (nums : list Z) (target : double) : world :=
  mkWorld (Reducer.Solution2 nums target) [].

Definition target_of (w : world) : double := target (this w).

(** ** Results over candidate paths *)

(** The paths that start with the pair [(i, j)]. *)
Definition pair_paths (d : nat) (nums : list double) (i j : nat)
  : list (Trace * double) :=
  flat_map (fun op =>
    map (extend (step_tokens nums i j op)) (paths d (reduce nums i j op)))
    operations.

(** The outcome of a first-solution search over the candidate paths [ps],
    where [commit] is what the base case does to the world with the trace of
    a success. *)
Definition first_result (commit : Trace -> world -> world)
           (target : double) (prev : Trace)
           (ps : list (Trace * double)) (w : world) : bool * world :=
  match find (reaches target) ps with
  | Some p => (true, commit (prev ++ fst p) w)
  | None => (false, w)
  end.

(** The traces an all-solutions search over the candidate paths [ps]
    records, each after the tokens [prev] of the steps already taken. *)
Definition all_traces (target : double) (prev : Trace)
           (ps : list (Trace * double)) : list Trace :=
  map (fun p => prev ++ fst p) (filter (reaches target) ps).

(** ** Replaying a trace

    A trace records values, not positions.  A step of it is replayed on a
    sequence by taking out two entries, at distinct positions, that print as
    its two operand tokens, and appending what its operator makes of them,
    which has to print as its result token.  A replay ends when the trace is
    used up and one value is left. *)

Definition operator (s : string) : option (double -> double -> double) :=
  if String.eqb s "+" then Some PrimFloat.add
  else if String.eqb s "*" then Some PrimFloat.mul
  else if String.eqb s "-" then Some PrimFloat.sub
  else if String.eqb s "/" then Some PrimFloat.div
  else None.

Inductive Replays : list double -> Trace -> double -> Prop :=
| Replays_done (v : double) : Replays [v] [] v
| Replays_step (nums : list double) (p q : nat) (s : string)
               (f : double -> double -> double) (rest : Trace) (v : double) :
    p <> q -> p < length nums -> q < length nums ->
    operator s = Some f ->
    Replays (others 0 nums p q
               ++ [f (nth p nums 0%float) (nth q nums 0%float)]) rest v ->
    Replays nums
            (to_string (nth p nums 0%float)
               :: to_string (nth q nums 0%float)
               :: to_string (f (nth p nums 0%float) (nth q nums 0%float))
               :: s :: rest)
            v.

(** The trace replays on [nums] to a value within [epsilon] of the target. *)
Definition replays_to (nums : list double) (target : double) (tr : Trace) : Prop :=
  exists v, Replays nums tr v /\ close v target = true.

(** The same, computed: the values the replays of [tr] on [nums] end in,
    over every choice of two positions that fits the tokens of each step. *)
Fixpoint replay (tr : Trace) (nums : list double) : list double :=
  match tr with
  | [] =>
      match nums with
      | [v] => [v]
      | _ => []
      end
  | sa :: sb :: sr :: s :: rest =>
      match operator s with
      | None => []
      | Some f =>
          flat_map (fun p =>
            flat_map (fun q =>
              let a := nth p nums 0%float in
              let b := nth q nums 0%float in
              if negb (p =? q)
                 && String.eqb (to_string a) sa
                 && String.eqb (to_string b) sb
                 && String.eqb (to_string (f a b)) sr
              then replay rest (others 0 nums p q ++ [f a b])
              else [])
              (range 0 (length nums)))
            (range 0 (length nums))
      end
  | _ => []
  end.

Definition replays_to_bool (nums : list double) (target : double) (tr : Trace) : bool :=
  existsb (fun v => close v target) (replay tr nums).

(** A trace of [n] steps, each of four tokens: first operand, second
    operand, result, operator symbol. *)
Inductive Grouped : nat -> Trace -> Prop :=
| Grouped_nil : Grouped 0 []
| Grouped_step (n : nat) (a b : double) (s : string)
               (f : double -> double -> double) (rest : Trace) :
    operator s = Some f ->
    Grouped n rest ->
    Grouped (S n) (to_string a :: to_string b :: to_string (f a b) :: s :: rest).

(** ** Division by zero

    IEEE-754 division by zero is defined: it gives an infinity, or NaN for
    [0 / 0].  What becomes of such a value in a search is followed through
    the class of each value: zero, finite, infinite or NaN. *)

Module Ieee.

Inductive kind : Type := KZero | KFinite | KInf | KNaN.

Definition kind_of (x : double) : kind :=
  match Prim2SF x with
  | S754_zero _ => KZero
  | S754_finite _ _ _ => KFinite
  | S754_infinity _ => KInf
  | S754_nan => KNaN
  end.

(** Infinite or NaN. *)
Definition wild (x : double) : Prop := kind_of x = KInf \/ kind_of x = KNaN.

(** Equal up to the sign of a zero. *)
Definition sim (x y : double) : Prop :=
  x = y \/ (kind_of x = KZero /\ kind_of y = KZero).

(** [y] tracks [x]: it is [x] up to the sign of a zero, or it is a zero
    where [x] is infinite or NaN. *)
Definition tracks (x y : double) : Prop :=
  sim x y \/ (kind_of y = KZero /\ wild x).

(** The four arithmetic operations of the search. *)
Inductive arith : Type := Plus | Times | Minus | Over.

Definition eval (f : arith) (x y : double) : double :=
  match f with
  | Plus => x + y
  | Times => x * y
  | Minus => x - y
  | Over => x / y
  end%float.

End Ieee.
Import Ieee.

(** *** The searches that skip a division by zero

    The policy the specification recommends for a reimplementation (section
    7, option (a)): an operation whose divisor is zero is not tried.  A
    target is reachable without dividing by zero when one of these paths
    reaches it. *)

Definition divides_by_zero (op : Operation) (a b : double) : bool :=
  match op with
  | DivideForward => PrimFloat.is_zero b
  | DivideReverse => PrimFloat.is_zero a
  | _ => false
  end.

Fixpoint safe_paths (depth : nat) (nums : list double) : list (Trace * double) :=
  match nums with
  | [v] => [([], v)]
  | _ =>
      match depth with
      | O => []
      | S d =>
          flat_map (fun i =>
            flat_map (fun j =>
              flat_map (fun op =>
                if divides_by_zero op (nth i nums 0%float) (nth j nums 0%float)
                then []
                else map (extend (step_tokens nums i j op))
                         (safe_paths d (reduce nums i j op)))
                operations)
              (range (i + 1) (length nums)))
            (range 0 (length nums - 1))
      end
  end.

Definition reachable_without_dividing_by_zero
           (nums : list double) (target : double) : bool :=
  existsb (reaches target) (safe_paths (length nums - 1) nums).

(** ** Counting and mirroring *)


(** The operation that makes of [(b, a)] what [op] makes of [(a, b)]. *)
Definition mirror (op : Operation) : Operation :=
  match op with
  | Add => Add
  | Multiply => Multiply
  | SubtractForward => SubtractReverse
  | DivideForward => DivideReverse
  | SubtractReverse => SubtractForward
  | DivideReverse => DivideForward
  end.

(** What [print_solutions] writes for the stored solutions [sols]. *)
Definition solution_lines (sols : list Trace) : list string :=
  flat_map (fun s => "Solution:"%string :: s) sols.

(** ** The calls made on an object

    What a client does with an object after its construction: it calls the
    public methods (lines 29-63) and assigns the public data members
    [numbers] and [target] (lines 12-13). *)

Inductive Call : Type :=
| GetAllSolutions
| GetFirstSolution
| GetMaxGenerated
| SetMaxGenerated (arg1 : Z)
| IsValidInput
| FindFirstSolution
| FindAllSolutions
| PrintSolutions
| AssignNumbers (arg1 : list Z)
| AssignTarget (arg1 : double).

(** [s.numbers = arg1]. *)
Definition assign_numbers (arg1 : list Z) : M unit :=
  modify (fun w =>
    let s := this w in
    mkWorld (mkSolution (solutions s) (first_solution s) (max_generated s) arg1
                        (target s))
            (cout w)).

(** [s.target = arg1]. *)
Definition assign_target (arg1 : double) : M unit :=
  modify (fun w =>
    let s := this w in
    mkWorld (mkSolution (solutions s) (first_solution s) (max_generated s)
                        (numbers s) arg1)
            (cout w)).

(** A call of [find_first_solution] that returned [true]: the numbers it
    was made on, and the trace [get_first_solution] returned right after
    it. *)
Definition Success : Type := (list Z * Trace)%type.

(** One call, with the latest success so far; the value a call returns is
    dropped, but for [find_first_solution]. *)
Definition perform (c : Call) (latest : option Success) : M (option Success) :=
  match c with
  | GetAllSolutions => Reducer.get_all_solutions ;; ret latest
  | GetFirstSolution => Reducer.get_first_solution ;; ret latest
  | GetMaxGenerated => Reducer.get_max_generated ;; ret latest
  | SetMaxGenerated arg1 => Reducer.set_max_generated arg1 ;; ret latest
  | IsValidInput => Reducer.is_valid_input ;; ret latest
  | FindFirstSolution =>
      zs <- gets (fun w => numbers (this w)) ;;
      found <- Reducer.find_first_solution ;;
      tr <- Reducer.get_first_solution ;;
      ret (if found then Some (zs, tr) else latest)
  | FindAllSolutions => Reducer.find_all_solutions ;; ret latest
  | PrintSolutions => Reducer.print_solutions ;; ret latest
  | AssignNumbers arg1 => assign_numbers arg1 ;; ret latest
  | AssignTarget arg1 => assign_target arg1 ;; ret latest
  end.

(** The calls of [calls], in order; the result is the latest success among
    them, or [latest] if none of them is one. *)
Fixpoint history (calls : list Call) (latest : option Success)
  : M (option Success) :=
  match calls with
  | [] => ret latest
  | c :: rest => l <- perform c latest ;; history rest l
  end.

(** What the latest success says of the object: [first_solution] is the
    trace of that success, or [first0], what the member held at the start,
    if there was none; and a success on [zs] was on at least one number and
    stored [4 * (length zs - 1)] tokens. *)
Definition latest_kept (first0 : Trace) (latest : option Success) (w : world)
  : Prop :=
  match latest with
  | Some (zs, tr) =>
      first_solution (this w) = tr
      /\ zs <> [] /\ length tr = 4 * (length zs - 1)
  | None => first_solution (this w) = first0
  end.

(** * Properties *)

(** ** The monad, the vectors and the loops *)

Lemma pop_back_snoc {A} (v : list A) (x : A) (w : world) :
  pop_back (v ++ [x]) w = Returns (v, w).
Proof.
  unfold pop_back.
  destruct (v ++ [x]) eqn:E.
  - now destruct v.
  - rewrite <- E, removelast_last. reflexivity.
Qed.

Lemma set_back_snoc {A} (v : list A) (x y : A) (w : world) :
  set_back (v ++ [x]) y w = Returns (v ++ [y], w).
Proof.
  unfold set_back.
  destruct (v ++ [x]) eqn:E.
  - now destruct v.
  - rewrite <- E, removelast_last. reflexivity.
Qed.

Lemma at_nth {A} (v : list A) (i : nat) (d : A) :
  i < length v -> at_ v i = ret (nth i v d).
Proof.
  intros H. unfold at_. now rewrite (nth_error_nth' v d H).
Qed.

Lemma write_lines_nil w : write_lines [] w = w.
Proof. destruct w. unfold write_lines. simpl. now rewrite app_nil_r. Qed.

Lemma write_lines_app l1 l2 w :
  write_lines l2 (write_lines l1 w) = write_lines (l1 ++ l2) w.
Proof. unfold write_lines. simpl. now rewrite app_assoc. Qed.

Lemma range_cons lo hi : lo < hi -> range lo hi = lo :: range (S lo) hi.
Proof.
  intros H. unfold range.
  replace (hi - lo) with (S (hi - S lo)) by lia. reflexivity.
Qed.

Lemma range_nil lo hi : hi <= lo -> range lo hi = [].
Proof. intros H. unfold range. now replace (hi - lo) with 0 by lia. Qed.

Lemma in_range k lo hi : In k (range lo hi) <-> lo <= k < hi.
Proof. unfold range. rewrite in_seq. lia. Qed.

Lemma find_app {X} (f : X -> bool) (l1 l2 : list X) :
  find f (l1 ++ l2) = match find f l1 with
                      | Some x => Some x
                      | None => find f l2
                      end.
Proof.
  induction l1 as [|x l1 IH]; simpl.
  - reflexivity.
  - now destruct (f x).
Qed.

(** A loop that leaves early on the first hit: if each iteration [k] commits
    the first hit among its candidates [cands k], the loop commits the first
    hit among all the candidates. *)
Lemma for_return_find {X} (hit : X -> bool) (commit : X -> world -> world)
      (cands : nat -> list X) (body : nat -> M (option bool)) (ks : list nat) :
  (forall k, In k ks -> forall w,
      body k w = Returns (match find hit (cands k) with
                          | Some x => (Some true, commit x w)
                          | None => (None, w)
                          end)) ->
  forall w,
    for_return ks body w = Returns (match find hit (flat_map cands ks) with
                                    | Some x => (Some true, commit x w)
                                    | None => (None, w)
                                    end).
Proof.
  induction ks as [|k ks IH]; intros Hbody w.
  - reflexivity.
  - simpl. unfold bind. rewrite (Hbody k (or_introl eq_refl)).
    simpl. rewrite find_app.
    destruct (find hit (cands k)) as [x|].
    + reflexivity.
    + apply IH. intros k' Hk'. apply Hbody. now right.
Qed.

Lemma record_app ts1 ts2 w : record (ts1 ++ ts2) w = record ts2 (record ts1 w).
Proof. unfold record. apply fold_left_app. Qed.

(** A loop that runs to its end: if each iteration [k] records the traces
    [found k], the loop records them all, in order. *)
Lemma for_each_record (found : nat -> list Trace) (body : nat -> M unit)
      (ks : list nat) :
  (forall k, In k ks -> forall w, body k w = Returns (tt, record (found k) w)) ->
  forall w, for_each ks body w = Returns (tt, record (flat_map found ks) w).
Proof.
  induction ks as [|k ks IH]; intros Hbody w.
  - reflexivity.
  - simpl. unfold bind. rewrite (Hbody k (or_introl eq_refl)).
    rewrite record_app. apply IH. intros k' Hk'. apply Hbody. now right.
Qed.

Lemma solutions_record ts w :
  solutions (this (record ts w)) = solutions (this w) ++ ts.
Proof.
  revert w. induction ts as [|t ts IH]; intros w; simpl.
  - now rewrite app_nil_r.
  - rewrite IH. simpl. now rewrite <- app_assoc.
Qed.

Lemma record_frame ts w :
  first_solution (this (record ts w)) = first_solution (this w)
  /\ max_generated (this (record ts w)) = max_generated (this w)
  /\ numbers (this (record ts w)) = numbers (this w)
  /\ target (this (record ts w)) = target (this w)
  /\ cout (record ts w) = cout w.
Proof.
  revert w. induction ts as [|t ts IH]; intros w; simpl.
  - repeat split.
  - destruct (IH (push_solution t w)) as (H1 & H2 & H3 & H4 & H5).
    rewrite H1, H2, H3, H4, H5. repeat split.
Qed.

(** ** The pieces of a loop body *)

Lemma print_output_cpp_spec (output : Trace) (w : world) :
  Reducer.print_output_cpp output w = Returns (tt, write_lines output w).
Proof.
  unfold Reducer.print_output_cpp.
  set (body := fun i : nat => s <- at_ output i ;; modify (write_lines [s])).
  assert (G : forall (rest done : list string) (w0 : world),
             output = done ++ rest ->
             for_each (range (length done) (length output)) body w0
             = Returns (tt, write_lines rest w0)).
  { induction rest as [|s rest IH]; intros done w0 E.
    - rewrite range_nil. 2:{ subst. rewrite app_nil_r. lia. }
      simpl. unfold ret. now rewrite write_lines_nil.
    - rewrite range_cons. 2:{ subst. rewrite length_app. simpl. lia. }
      simpl. unfold bind at 1. unfold body at 1. unfold bind, at_.
      replace (nth_error output (length done)) with (Some s).
      2:{ subst. rewrite nth_error_app2 by lia. now rewrite Nat.sub_diag. }
      unfold ret, modify.
      specialize (IH (done ++ [s]) (write_lines [s] w0)).
      rewrite length_app in IH. simpl in IH.
      replace (length done + 1) with (S (length done)) in IH by lia.
      rewrite IH. 2:{ subst. now rewrite <- app_assoc. }
      now rewrite write_lines_app. }
  apply (G output [] w). reflexivity.
Qed.

Lemma residual_loop_spec (nums : list double) (i j : nat) (w : world) :
  Reducer.residual_loop nums i j w = Returns (others 0 nums i j, w).
Proof.
  unfold Reducer.residual_loop.
  set (body := fun (k : nat) (new_nums : list double) =>
                 if negb (k =? i) && negb (k =? j)
                 then x <- at_ nums k ;; ret (push_back new_nums x)
                 else ret new_nums).
  assert (G : forall (rest done acc : list double),
             nums = done ++ rest ->
             for_fold (range (length done) (length nums)) body acc w
             = Returns (acc ++ others (length done) rest i j, w)).
  { induction rest as [|x rest IH]; intros done acc E.
    - rewrite range_nil. 2:{ subst. rewrite app_nil_r. lia. }
      simpl. unfold ret. now rewrite app_nil_r.
    - rewrite range_cons. 2:{ subst. rewrite length_app. simpl. lia. }
      simpl. unfold bind at 1. unfold body at 1.
      assert (Hx : nth_error nums (length done) = Some x).
      { subst. rewrite nth_error_app2 by lia. now rewrite Nat.sub_diag. }
      specialize (IH (done ++ [x])).
      rewrite length_app in IH. simpl in IH.
      replace (length done + 1) with (S (length done)) in IH by lia.
      destruct (negb (length done =? i) && negb (length done =? j)).
      + unfold at_. rewrite Hx. unfold ret at 1 2. unfold bind.
        rewrite IH. 2:{ subst. now rewrite <- app_assoc. }
        unfold push_back. now rewrite <- app_assoc.
      + unfold ret at 1. rewrite IH. 2:{ subst. now rewrite <- app_assoc. }
        reflexivity. }
  apply (G nums [] []). reflexivity.
Qed.

(** ** The enumeration, pair by pair *)

Lemma paths_S d nums :
  length nums <> 1 ->
  paths (S d) nums =
  flat_map (fun i => flat_map (pair_paths d nums i) (range (i + 1) (length nums)))
           (range 0 (length nums - 1)).
Proof.
  intros H. destruct nums as [|v [|v' nums]]; try reflexivity.
  now contradiction H.
Qed.

Lemma reaches_extend target pre p :
  reaches target (extend pre p) = reaches target p.
Proof. reflexivity. Qed.

Lemma find_extend target pre l :
  find (reaches target) (map (extend pre) l)
  = option_map (extend pre) (find (reaches target) l).
Proof.
  induction l as [|p l IH].
  - reflexivity.
  - cbn [map find]. rewrite reaches_extend, IH.
    now destruct (reaches target p).
Qed.

Lemma filter_extend target pre l :
  filter (reaches target) (map (extend pre) l)
  = map (extend pre) (filter (reaches target) l).
Proof.
  induction l as [|p l IH].
  - reflexivity.
  - cbn [map filter]. rewrite reaches_extend, IH.
    now destruct (reaches target p).
Qed.

(** *** The positions that stay *)

Lemma others_beyond l k i j :
  i < k -> j < k -> others k l i j = l.
Proof.
  revert k. induction l as [|x l IH]; intros k Hi Hj; simpl.
  - reflexivity.
  - destruct (Nat.eqb_spec k i); [lia|].
    destruct (Nat.eqb_spec k j); [lia|].
    simpl. f_equal. apply IH; lia.
Qed.

Lemma others_one l k i j :
  i < k -> k <= j < k + length l ->
  Permutation l (nth (j - k) l 0%float :: others k l i j).
Proof.
  revert k. induction l as [|x l IH]; intros k Hi Hj; simpl in *.
  - lia.
  - destruct (Nat.eqb_spec k i); [lia|].
    destruct (Nat.eqb_spec k j) as [->|Hne]; simpl.
    + rewrite Nat.sub_diag, others_beyond by lia. reflexivity.
    + replace (j - k) with (S (j - S k)) by lia.
      apply (Permutation_cons_app [nth (j - S k) l 0%float]). apply IH; lia.
Qed.

Lemma others_two l k i j :
  k <= i -> i < j < k + length l ->
  Permutation l (nth (i - k) l 0%float :: nth (j - k) l 0%float :: others k l i j).
Proof.
  revert k. induction l as [|x l IH]; intros k Hi Hj; simpl in *.
  - lia.
  - destruct (Nat.eqb_spec k i) as [->|Hne]; simpl.
    + rewrite Nat.sub_diag. apply perm_skip.
      replace (j - i) with (S (j - S i)) by lia.
      apply others_one; lia.
    + destruct (Nat.eqb_spec k j); [lia|]. simpl.
      replace (i - k) with (S (i - S k)) by lia.
      replace (j - k) with (S (j - S k)) by lia.
      apply (Permutation_cons_app [nth (i - S k) l 0%float; nth (j - S k) l 0%float]).
      apply IH; lia.
Qed.

Lemma others_pair nums i j :
  i < j < length nums ->
  Permutation nums (nth i nums 0%float :: nth j nums 0%float :: others 0 nums i j).
Proof.
  intros H. generalize (others_two nums 0 i j).
  rewrite !Nat.sub_0_r. intros G. apply G; lia.
Qed.

Lemma length_reduce nums i j op :
  i < j < length nums -> length (reduce nums i j op) + 1 = length nums.
Proof.
  intros H. unfold reduce. rewrite length_app. simpl.
  pose proof (Permutation_length (others_pair nums i j H)) as E.
  simpl in E. lia.
Qed.

(** ** What the searches compute *)

Lemma flat_map_ext_in {A B} (f g : A -> list B) (l : list A) :
  (forall a, In a l -> f a = g a) -> flat_map f l = flat_map g l.
Proof.
  induction l as [|a l IH]; intros H; simpl.
  - reflexivity.
  - rewrite (H a (or_introl eq_refl)), IH; [reflexivity|].
    intros b Hb. apply H. now right.
Qed.

(** A depth beyond the one the sequence needs enumerates the same paths. *)
Lemma paths_depth d : forall d' nums,
  length nums <= S d -> length nums <= S d' -> paths d nums = paths d' nums.
Proof.
  induction d as [|d IH]; intros d' nums H H'.
  - destruct nums as [|v [|v' nums]]; simpl in *; try lia.
    + destruct d'; reflexivity.
    + destruct d'; reflexivity.
  - destruct d' as [|d'].
    + destruct nums as [|v [|v' nums]]; simpl in *; try lia; reflexivity.
    + destruct (Nat.eq_dec (length nums) 1) as [E|E].
      * destruct nums as [|v [|v' nums]]; try discriminate. reflexivity.
      * rewrite !paths_S by assumption.
        apply flat_map_ext_in. intros i Hi. apply in_range in Hi.
        apply flat_map_ext_in. intros j Hj. apply in_range in Hj.
        unfold pair_paths. apply flat_map_ext_in. intros op _.
        pose proof (length_reduce nums i j op ltac:(lia)) as Hred.
        f_equal. apply IH; lia.
Qed.

Lemma paths_all_paths d nums :
  length nums <= S d -> paths d nums = all_paths nums.
Proof. intros H. unfold all_paths. apply paths_depth; lia. Qed.

(** One operation of a loop body: the recursive call is replaced by what it
    returns; a hit ends the body, a miss undoes the two or four tokens. *)
Ltac try_operation HR unfolder target d nums i j op :=
  let H := fresh in
  pose proof (HR op) as H; cbn [apply] in H; rewrite H; clear H;
  unfolder;
  destruct (find (reaches target) (paths d (reduce nums i j op))) as [?p|];
  [ cbn; rewrite <- ?app_assoc; reflexivity
  | cbv beta iota; rewrite ?pop_back_snoc, ?set_back_snoc ].

Section FirstSearch.

(** What the base case does with a found trace, as a change of the world. *)
Variable found : Trace -> M unit.
Variable commit : Trace -> world -> world.
Hypothesis found_commit : forall tr w, found tr w = Returns (tt, commit tr w).

Lemma solve_first_body_spec self d nums prev target :
  (forall i j op pre w, i < j < length nums ->
     self (reduce nums i j op) pre target w
     = Returns (first_result commit target pre (paths d (reduce nums i j op)) w)) ->
  forall w, Reducer.solve_first_body found self nums prev target w
            = Returns (first_result commit target prev (paths (S d) nums) w).
Proof.
  intros Hself w. unfold Reducer.solve_first_body, size.
  destruct (Nat.eqb_spec (length nums) 1) as [E|E].
  - destruct nums as [|v [|v' nums]]; try discriminate.
    unfold bind, at_, ret. simpl. unfold first_result. simpl.
    unfold reaches, close, epsilon, fabs. simpl.
    destruct (_ <? _)%float.
    + rewrite found_commit. now rewrite app_nil_r.
    + reflexivity.
  - rewrite paths_S by assumption. unfold bind at 1.
    rewrite (for_return_find (reaches target) (fun p => commit (prev ++ fst p))
               (fun i => flat_map (pair_paths d nums i) (range (i + 1) (length nums)))).
    + unfold first_result. now destruct (find _ _).
    + intros i Hi w1. apply in_range in Hi.
      apply (for_return_find (reaches target) (fun p => commit (prev ++ fst p))
               (pair_paths d nums i)).
      intros j Hj w2. apply in_range in Hj.
      assert (Hij : i < j < length nums) by lia.
      unfold bind. rewrite residual_loop_spec.
      rewrite (at_nth nums i 0%float), (at_nth nums j 0%float) by lia.
      unfold ret at 1 2. unfold push_back.
      assert (HR : forall op pre w0,
                 self (others 0 nums i j
                         ++ [apply op (nth i nums 0%float) (nth j nums 0%float)])
                      pre target w0
                 = Returns (first_result commit target pre (paths d (reduce nums i j op)) w0)).
      { intros. now apply Hself. }
      unfold pair_paths, operations. cbn [flat_map].
      rewrite !find_app, !find_extend. cbn [find].
      try_operation HR ltac:(unfold first_result at 1) target d nums i j Add.
      try_operation HR ltac:(unfold first_result at 1) target d nums i j Multiply.
      try_operation HR ltac:(unfold first_result at 1) target d nums i j SubtractForward.
      try_operation HR ltac:(unfold first_result at 1) target d nums i j DivideForward.
      try_operation HR ltac:(unfold first_result at 1) target d nums i j SubtractReverse.
      try_operation HR ltac:(unfold first_result at 1) target d nums i j DivideReverse.
      reflexivity.
Qed.

Lemma solve_first_at_spec d : forall nums prev target w,
  length nums <= S d ->
  Reducer.solve_first_at found d nums prev target w
  = Returns (first_result commit target prev (all_paths nums) w).
Proof.
  induction d as [|d IH]; intros nums prev target w Hlen.
  - change (Reducer.solve_first_at found 0)
      with (Reducer.solve_first_body found (fun _ _ _ => too_deep)).
    rewrite (solve_first_body_spec _ 0).
    + now rewrite paths_all_paths by lia.
    + intros i j op pre w0 Hij. lia.
  - change (Reducer.solve_first_at found (S d))
      with (Reducer.solve_first_body found (Reducer.solve_first_at found d)).
    rewrite (solve_first_body_spec _ d).
    + now rewrite paths_all_paths by lia.
    + intros i j op pre w0 Hij.
      pose proof (length_reduce nums i j op Hij) as Hred.
      rewrite IH by lia. now rewrite paths_all_paths by lia.
Qed.

End FirstSearch.

Lemma solution_exists_body_spec self d nums target :
  (forall i j op w, i < j < length nums ->
     self (reduce nums i j op) target w
     = Returns (first_result keep target [] (paths d (reduce nums i j op)) w)) ->
  forall w, Reducer.solution_exists_body self nums target w
            = Returns (first_result keep target [] (paths (S d) nums) w).
Proof.
  intros Hself w. unfold Reducer.solution_exists_body, size.
  destruct (Nat.eqb_spec (length nums) 1) as [E|E].
  - destruct nums as [|v [|v' nums]]; try discriminate.
    unfold bind, at_, ret. simpl. unfold first_result. simpl.
    unfold reaches, close, epsilon, fabs. simpl.
    now destruct (_ <? _)%float.
  - rewrite paths_S by assumption. unfold bind at 1.
    rewrite (for_return_find (reaches target) (fun p => keep ([] ++ fst p))
               (fun i => flat_map (pair_paths d nums i) (range (i + 1) (length nums)))).
    + unfold first_result. now destruct (find _ _).
    + intros i Hi w1. apply in_range in Hi.
      apply (for_return_find (reaches target) (fun p => keep ([] ++ fst p))
               (pair_paths d nums i)).
      intros j Hj w2. apply in_range in Hj.
      assert (Hij : i < j < length nums) by lia.
      unfold bind. rewrite residual_loop_spec.
      rewrite (at_nth nums i 0%float), (at_nth nums j 0%float) by lia.
      unfold ret at 1 2. unfold push_back.
      assert (HR : forall op w0,
                 self (others 0 nums i j
                         ++ [apply op (nth i nums 0%float) (nth j nums 0%float)])
                      target w0
                 = Returns (first_result keep target [] (paths d (reduce nums i j op)) w0)).
      { intros. now apply Hself. }
      unfold pair_paths, operations. cbn [flat_map].
      rewrite !find_app, !find_extend. cbn [find].
      try_operation HR ltac:(unfold first_result at 1) target d nums i j Add.
      try_operation HR ltac:(unfold first_result at 1) target d nums i j Multiply.
      try_operation HR ltac:(unfold first_result at 1) target d nums i j SubtractForward.
      try_operation HR ltac:(unfold first_result at 1) target d nums i j DivideForward.
      try_operation HR ltac:(unfold first_result at 1) target d nums i j SubtractReverse.
      try_operation HR ltac:(unfold first_result at 1) target d nums i j DivideReverse.
      reflexivity.
Qed.

Lemma solution_exists_at_spec d : forall nums target w,
  length nums <= S d ->
  Reducer.solution_exists_at d nums target w
  = Returns (first_result keep target [] (all_paths nums) w).
Proof.
  induction d as [|d IH]; intros nums target w Hlen.
  - change (Reducer.solution_exists_at 0)
      with (Reducer.solution_exists_body (fun _ _ => too_deep)).
    rewrite (solution_exists_body_spec _ 0).
    + now rewrite paths_all_paths by lia.
    + intros i j op w0 Hij. lia.
  - change (Reducer.solution_exists_at (S d))
      with (Reducer.solution_exists_body (Reducer.solution_exists_at d)).
    rewrite (solution_exists_body_spec _ d).
    + now rewrite paths_all_paths by lia.
    + intros i j op w0 Hij.
      pose proof (length_reduce nums i j op Hij) as Hred.
      rewrite IH by lia. now rewrite paths_all_paths by lia.
Qed.

Lemma all_traces_app target prev ps1 ps2 :
  all_traces target prev (ps1 ++ ps2)
  = all_traces target prev ps1 ++ all_traces target prev ps2.
Proof. unfold all_traces. now rewrite filter_app, map_app. Qed.

Lemma all_traces_extend target prev tok ps :
  all_traces target (prev ++ tok) ps
  = all_traces target prev (map (extend tok) ps).
Proof.
  unfold all_traces. rewrite filter_extend, map_map.
  apply map_ext. intros p. simpl. now rewrite app_assoc.
Qed.

Lemma all_traces_flat_map target prev (cands : nat -> list (Trace * double)) ks :
  all_traces target prev (flat_map cands ks)
  = flat_map (fun k => all_traces target prev (cands k)) ks.
Proof.
  induction ks as [|k ks IH]; simpl.
  - reflexivity.
  - now rewrite all_traces_app, IH.
Qed.

Lemma solve_all_body_spec self d nums prev target :
  (forall i j op pre w, i < j < length nums ->
     self (reduce nums i j op) pre target w
     = Returns (tt, record (all_traces target pre (paths d (reduce nums i j op))) w)) ->
  forall w, Reducer.solve_all_body self nums prev target w
            = Returns (tt, record (all_traces target prev (paths (S d) nums)) w).
Proof.
  intros Hself w. unfold Reducer.solve_all_body, size.
  destruct (Nat.eqb_spec (length nums) 1) as [E|E].
  - destruct nums as [|v [|v' nums]]; try discriminate.
    unfold bind, at_, ret, modify. simpl. unfold all_traces. simpl.
    unfold reaches, close, epsilon, fabs. simpl.
    destruct (_ <? _)%float; simpl; now rewrite ?app_nil_r.
  - rewrite paths_S by assumption. unfold bind at 1. unfold ret at 1.
    rewrite all_traces_flat_map.
    apply for_each_record. intros i Hi w1. apply in_range in Hi.
    rewrite all_traces_flat_map.
    apply for_each_record. intros j Hj w2. apply in_range in Hj.
    assert (Hij : i < j < length nums) by lia.
    unfold bind. rewrite residual_loop_spec.
    rewrite (at_nth nums i 0%float), (at_nth nums j 0%float) by lia.
    unfold ret at 1 2. unfold push_back.
    assert (HR : forall op pre w0,
               self (others 0 nums i j
                       ++ [apply op (nth i nums 0%float) (nth j nums 0%float)])
                    pre target w0
               = Returns (tt, record (all_traces target pre
                                        (paths d (reduce nums i j op))) w0)).
    { intros. now apply Hself. }
    unfold pair_paths, operations. cbn [flat_map].
    rewrite !all_traces_app, !record_app.
    pose proof (HR Add) as H1; cbn [apply] in H1; rewrite H1; clear H1.
    rewrite !pop_back_snoc, set_back_snoc.
    pose proof (HR Multiply) as H1; cbn [apply] in H1; rewrite H1; clear H1.
    rewrite !pop_back_snoc, set_back_snoc.
    pose proof (HR SubtractForward) as H1; cbn [apply] in H1; rewrite H1; clear H1.
    rewrite !pop_back_snoc, set_back_snoc.
    pose proof (HR DivideForward) as H1; cbn [apply] in H1; rewrite H1; clear H1.
    rewrite !pop_back_snoc, set_back_snoc.
    pose proof (HR SubtractReverse) as H1; cbn [apply] in H1; rewrite H1; clear H1.
    rewrite !pop_back_snoc, set_back_snoc.
    pose proof (HR DivideReverse) as H1; cbn [apply] in H1; rewrite H1; clear H1.
    rewrite !pop_back_snoc. unfold ret.
    rewrite <- !app_assoc. cbn [app].
    rewrite !all_traces_extend. reflexivity.
Qed.

Lemma solve_all_at_spec d : forall nums prev target w,
  length nums <= S d ->
  Reducer.solve_all_at d nums prev target w
  = Returns (tt, record (all_traces target prev (all_paths nums)) w).
Proof.
  induction d as [|d IH]; intros nums prev target w Hlen.
  - change (Reducer.solve_all_at 0)
      with (Reducer.solve_all_body (fun _ _ _ => too_deep)).
    rewrite (solve_all_body_spec _ 0).
    + now rewrite paths_all_paths by lia.
    + intros i j op pre w0 Hij. lia.
  - change (Reducer.solve_all_at (S d))
      with (Reducer.solve_all_body (Reducer.solve_all_at d)).
    rewrite (solve_all_body_spec _ d).
    + now rewrite paths_all_paths by lia.
    + intros i j op pre w0 Hij.
      pose proof (length_reduce nums i j op Hij) as Hred.
      rewrite IH by lia. now rewrite paths_all_paths by lia.
Qed.

(** *** The three functions against the three modes of the specification *)

Lemma found_first_spec tr w :
  Reducer.found_first tr w = Returns (tt, commit_first tr w).
Proof.
  unfold Reducer.found_first, bind. now rewrite print_output_cpp_spec.
Qed.

Lemma existsb_find {X} (f : X -> bool) (l : list X) :
  existsb f l = match find f l with Some _ => true | None => false end.
Proof.
  induction l as [|x l IH]; simpl.
  - reflexivity.
  - now destruct (f x).
Qed.

Lemma find_filter {X} (f : X -> bool) (l : list X) :
  find f l = hd_error (filter f l).
Proof.
  induction l as [|x l IH]; simpl.
  - reflexivity.
  - now destruct (f x).
Qed.

Lemma solution_exists_spec nums target w :
  Reducer.solution_exists nums target w = Returns (spec_exists nums target, w).
Proof.
  unfold Reducer.solution_exists, size.
  rewrite solution_exists_at_spec by lia.
  unfold first_result, spec_exists. rewrite existsb_find.
  now destruct (find _ _).
Qed.

Lemma solve_first_spec nums prev target w :
  Reducer.solve_first nums prev target w
  = Returns (match spec_find_first nums target with
             | Some tr => (true, commit_first (prev ++ tr) w)
             | None => (false, w)
             end).
Proof.
  unfold Reducer.solve_first, size.
  rewrite (solve_first_at_spec _ commit_first found_first_spec) by lia.
  unfold first_result, spec_find_first.
  now destruct (find _ _).
Qed.

Lemma solve_all_spec nums prev target w :
  Reducer.solve_all nums prev target w
  = Returns (tt, record (map (app prev) (spec_find_all nums target)) w).
Proof.
  unfold Reducer.solve_all, size.
  rewrite solve_all_at_spec by lia.
  unfold all_traces, spec_find_all. now rewrite map_map.
Qed.

(** [solve] of [src/solve_24.cpp] prints the trace and changes nothing else. *)
Lemma solve_spec nums prev target w :
  Judge.solve nums prev target w
  = Returns (match spec_find_first nums target with
             | Some tr => (true, write_lines (prev ++ tr) w)
             | None => (false, w)
             end).
Proof.
  unfold Judge.solve, size.
  rewrite (solve_first_at_spec _ write_lines print_output_cpp_spec) by lia.
  unfold first_result, spec_find_first.
  now destruct (find _ _).
Qed.

Lemma spec_exists_find_first nums target :
  spec_exists nums target
  = match spec_find_first nums target with Some _ => true | None => false end.
Proof.
  unfold spec_exists, spec_find_first. rewrite existsb_find.
  now destruct (find _ _).
Qed.

Lemma spec_find_first_find_all nums target :
  spec_find_first nums target = hd_error (spec_find_all nums target).
Proof.
  unfold spec_find_first, spec_find_all. rewrite find_filter.
  now destruct (filter _ _).
Qed.

Lemma others_sym l k i j : others k l i j = others k l j i.
Proof.
  revert k. induction l as [|x l IH]; intros k; simpl.
  - reflexivity.
  - rewrite IH, andb_comm. reflexivity.
Qed.

(** Where a path of the enumeration starts. *)
Lemma in_paths_S d nums tr v :
  length nums <> 1 ->
  In (tr, v) (paths (S d) nums) ->
  exists i j op tr',
    i < j < length nums
    /\ tr = step_tokens nums i j op ++ tr'
    /\ In (tr', v) (paths d (reduce nums i j op)).
Proof.
  intros Hne Hin. rewrite paths_S in Hin by assumption.
  apply in_flat_map in Hin. destruct Hin as (i & Hi & Hin).
  apply in_flat_map in Hin. destruct Hin as (j & Hj & Hin).
  apply in_flat_map in Hin. destruct Hin as (op & _ & Hin).
  apply in_map_iff in Hin. destruct Hin as ([tr' v'] & E & Hin).
  apply in_range in Hi. apply in_range in Hj.
  unfold extend in E. simpl in E. inversion E; subst.
  exists i, j, op, tr'. repeat split; try lia. assumption.
Qed.

Lemma replay_step_tokens nums i j op tr v :
  i < j < length nums ->
  Replays (reduce nums i j op) tr v ->
  Replays nums (step_tokens nums i j op ++ tr) v.
Proof.
  intros Hij H. unfold step_tokens, reduce in *.
  destruct op; cbn [tokens apply symbol app] in *.
  - apply (Replays_step nums i j "+" PrimFloat.add); auto; lia.
  - apply (Replays_step nums i j "*" PrimFloat.mul); auto; lia.
  - apply (Replays_step nums i j "-" PrimFloat.sub); auto; lia.
  - apply (Replays_step nums i j "/" PrimFloat.div); auto; lia.
  - apply (Replays_step nums j i "-" PrimFloat.sub); auto; try lia.
    now rewrite others_sym.
  - apply (Replays_step nums j i "/" PrimFloat.div); auto; try lia.
    now rewrite others_sym.
Qed.

Lemma paths_replay d : forall nums tr v,
  In (tr, v) (paths d nums) -> Replays nums tr v.
Proof.
  induction d as [|d IH]; intros nums tr v Hin.
  - destruct nums as [|x [|x' nums]]; simpl in Hin; try contradiction.
    destruct Hin as [E|[]]. inversion E; subst. constructor.
  - destruct (Nat.eq_dec (length nums) 1) as [E|E].
    + destruct nums as [|x [|x' nums]]; try discriminate.
      destruct Hin as [E'|[]]. inversion E'; subst. constructor.
    + apply in_paths_S in Hin; [|assumption].
      destruct Hin as (i & j & op & tr' & Hij & -> & Hin).
      apply replay_step_tokens; [assumption|]. now apply IH.
Qed.

(** The computed replay is the relation. *)
Lemma replay_complete nums tr v : Replays nums tr v -> In v (replay tr nums).
Proof.
  induction 1 as [v|nums p q s f rest v Hpq Hp Hq Hs _ IH].
  - now left.
  - cbn [replay]. rewrite Hs.
    apply in_flat_map. exists p. split; [apply in_range; lia|].
    apply in_flat_map. exists q. split; [apply in_range; lia|].
    cbv zeta. rewrite !String.eqb_refl.
    destruct (Nat.eqb_spec p q); [contradiction|]. exact IH.
Qed.

Lemma replay_sound : forall n tr, length tr <= n ->
  forall nums v, In v (replay tr nums) -> Replays nums tr v.
Proof.
  induction n as [|n IH]; intros tr Hn nums v Hin.
  - destruct tr; [|simpl in Hn; lia].
    destruct nums as [|x [|x' nums]]; simpl in Hin; try contradiction.
    destruct Hin as [->|[]]. constructor.
  - destruct tr as [|sa [|sb [|sr [|s rest]]]]; try contradiction.
    + destruct nums as [|x [|x' nums]]; simpl in Hin; try contradiction.
      destruct Hin as [->|[]]. constructor.
    + cbn [replay] in Hin.
      destruct (operator s) as [f|] eqn:Hs; [|contradiction].
      apply in_flat_map in Hin. destruct Hin as (p & Hp & Hin).
      apply in_flat_map in Hin. destruct Hin as (q & Hq & Hin).
      apply in_range in Hp. apply in_range in Hq. cbv zeta in Hin.
      destruct (Nat.eqb_spec p q) as [|Hpq]; [contradiction|].
      destruct (String.eqb_spec (to_string (nth p nums 0%float)) sa)
        as [<-|]; [|contradiction].
      destruct (String.eqb_spec (to_string (nth q nums 0%float)) sb)
        as [<-|]; [|contradiction].
      destruct (String.eqb_spec
                  (to_string (f (nth p nums 0%float) (nth q nums 0%float))) sr)
        as [<-|]; [|contradiction].
      simpl in Hin.
      apply Replays_step; try assumption; try lia.
      apply IH; [simpl in Hn; lia | assumption].
Qed.

Lemma replays_to_decide nums target tr :
  replays_to nums target tr <-> replays_to_bool nums target tr = true.
Proof.
  unfold replays_to, replays_to_bool. rewrite existsb_exists. split.
  - intros (v & H & Hv). exists v. split; [now apply replay_complete|assumption].
  - intros (v & H & Hv). exists v. split; [|assumption].
    now apply (replay_sound (length tr)).
Qed.

Lemma grouped_step_tokens nums i j op n tr :
  Grouped n tr -> Grouped (S n) (step_tokens nums i j op ++ tr).
Proof.
  intros H. unfold step_tokens.
  destruct op; cbn [tokens apply symbol app].
  - now apply (Grouped_step n _ _ "+" PrimFloat.add).
  - now apply (Grouped_step n _ _ "*" PrimFloat.mul).
  - now apply (Grouped_step n _ _ "-" PrimFloat.sub).
  - now apply (Grouped_step n _ _ "/" PrimFloat.div).
  - now apply (Grouped_step n _ _ "-" PrimFloat.sub).
  - now apply (Grouped_step n _ _ "/" PrimFloat.div).
Qed.

Lemma paths_grouped d : forall nums tr v,
  In (tr, v) (paths d nums) -> Grouped (length nums - 1) tr.
Proof.
  induction d as [|d IH]; intros nums tr v Hin.
  - destruct nums as [|x [|x' nums]]; simpl in Hin; try contradiction.
    destruct Hin as [E|[]]. inversion E; subst. constructor.
  - destruct (Nat.eq_dec (length nums) 1) as [E|E].
    + destruct nums as [|x [|x' nums]]; try discriminate.
      destruct Hin as [E'|[]]. inversion E'; subst. constructor.
    + apply in_paths_S in Hin; [|assumption].
      destruct Hin as (i & j & op & tr' & Hij & -> & Hin).
      pose proof (length_reduce nums i j op Hij) as Hred.
      apply IH in Hin.
      replace (length nums - 1) with (S (length (reduce nums i j op) - 1)) by lia.
      now apply grouped_step_tokens.
Qed.

Lemma grouped_length n tr : Grouped n tr -> length tr = 4 * n.
Proof. induction 1; simpl in *; lia. Qed.

Lemma in_spec_find_all nums target tr :
  In tr (spec_find_all nums target) ->
  exists v, In (tr, v) (all_paths nums) /\ close v target = true.
Proof.
  unfold spec_find_all. intros H.
  apply in_map_iff in H. destruct H as ([tr' v] & E & H).
  apply filter_In in H. destruct H as [H Hv]. simpl in E. subst.
  now exists v.
Qed.

Lemma in_spec_find_first nums target tr :
  spec_find_first nums target = Some tr -> In tr (spec_find_all nums target).
Proof.
  rewrite spec_find_first_find_all.
  destruct (spec_find_all nums target); simpl; intros E; inversion E. now left.
Qed.

Lemma first_solution_commit_first tr w :
  first_solution (this (commit_first tr w)) = tr.
Proof. reflexivity. Qed.

(** ** The recursive calls *)

Lemma bind_ext {A B} (c c' : M A) (k : A -> M B) (w : world) :
  c w = c' w -> bind c k w = bind c' k w.
Proof. intros H. unfold bind. now rewrite H. Qed.

Lemma bind_ext_r {A B} (c : M A) (k k' : A -> M B) (w : world) :
  (forall a w', k a w' = k' a w') -> bind c k w = bind c k' w.
Proof. intros H. unfold bind. destruct (c w) as [[a w']| |]; auto. Qed.

Lemma for_return_ext {R} (body body' : nat -> M (option R)) (ks : list nat) :
  (forall k, In k ks -> forall w, body k w = body' k w) ->
  forall w, for_return ks body w = for_return ks body' w.
Proof.
  induction ks as [|k ks IH]; intros H w; simpl.
  - reflexivity.
  - unfold bind. rewrite (H k (or_introl eq_refl)).
    destruct (body' k w) as [[[r|] w']| |]; try reflexivity.
    apply IH. intros k' Hk'. apply H. now right.
Qed.

Lemma for_each_ext (body body' : nat -> M unit) (ks : list nat) :
  (forall k, In k ks -> forall w, body k w = body' k w) ->
  forall w, for_each ks body w = for_each ks body' w.
Proof.
  induction ks as [|k ks IH]; intros H w; simpl.
  - reflexivity.
  - unfold bind. rewrite (H k (or_introl eq_refl)).
    destruct (body' k w) as [[[] w']| |]; try reflexivity.
    apply IH. intros k' Hk'. apply H. now right.
Qed.

(** One recursive call of a loop body, made through [self] on one side and
    through [self'] on the other: once the two are known to agree on it, the
    bodies go on from the same outcome. *)
Ltac same_call HR op :=
  let H := fresh in
  pose proof (HR op) as H; cbn [apply] in H; rewrite H; clear H;
  lazymatch goal with
  | |- match ?c with Returns _ => _ | Undefined => _ | TooDeep => _ end = _ =>
      destruct c as [[[|] ?w]| |]
  end;
  try reflexivity;
  rewrite ?pop_back_snoc, ?set_back_snoc.

Ltac same_call_unit HR op :=
  let H := fresh in
  pose proof (HR op) as H; cbn [apply] in H; rewrite H; clear H;
  lazymatch goal with
  | |- match ?c with Returns _ => _ | Undefined => _ | TooDeep => _ end = _ =>
      destruct c as [[[] ?w]| |]
  end;
  try reflexivity;
  rewrite ?pop_back_snoc, ?set_back_snoc.

(** The body of [solution_exists] calls itself on nothing but the reduced
    sequences [reduce nums i j op] of the pairs [i < j]: two functions that
    agree on those make it return the same. *)
Lemma solution_exists_body_calls self self' nums target :
  (forall i j op t w, i < j < length nums ->
     self (reduce nums i j op) t w = self' (reduce nums i j op) t w) ->
  forall w, Reducer.solution_exists_body self nums target w
            = Reducer.solution_exists_body self' nums target w.
Proof.
  intros H w. unfold Reducer.solution_exists_body, size.
  destruct (length nums =? 1); [reflexivity|].
  apply bind_ext. apply for_return_ext.
  intros i Hi w1. apply in_range in Hi.
  apply for_return_ext. intros j Hj w2. apply in_range in Hj.
  assert (Hij : i < j < length nums) by lia.
  unfold bind. rewrite residual_loop_spec.
  rewrite (at_nth nums i 0%float), (at_nth nums j 0%float) by lia.
  unfold ret at 1 2. cbv beta iota. unfold ret at 8 9. cbv beta iota.
  unfold push_back.
  assert (HR : forall op t w0,
             self (others 0 nums i j
                     ++ [apply op (nth i nums 0%float) (nth j nums 0%float)]) t w0
             = self' (others 0 nums i j
                        ++ [apply op (nth i nums 0%float) (nth j nums 0%float)]) t w0).
  { intros. now apply H. }
  same_call HR Add.
  same_call HR Multiply.
  same_call HR SubtractForward.
  same_call HR DivideForward.
  same_call HR SubtractReverse.
  same_call HR DivideReverse.
Qed.

(** The same of [solve_first] (and of [solve] in [src/solve_24.cpp]). *)
Lemma solve_first_body_calls found self self' nums prev_ops target :
  (forall i j op pre t w, i < j < length nums ->
     self (reduce nums i j op) pre t w = self' (reduce nums i j op) pre t w) ->
  forall w, Reducer.solve_first_body found self nums prev_ops target w
            = Reducer.solve_first_body found self' nums prev_ops target w.
Proof.
  intros H w. unfold Reducer.solve_first_body, size.
  destruct (length nums =? 1); [reflexivity|].
  apply bind_ext. apply for_return_ext.
  intros i Hi w1. apply in_range in Hi.
  apply for_return_ext. intros j Hj w2. apply in_range in Hj.
  assert (Hij : i < j < length nums) by lia.
  unfold bind. rewrite residual_loop_spec.
  rewrite (at_nth nums i 0%float), (at_nth nums j 0%float) by lia.
  unfold ret at 1 2. cbv beta iota. unfold ret at 8 9. cbv beta iota.
  unfold push_back.
  assert (HR : forall op pre t w0,
             self (others 0 nums i j
                     ++ [apply op (nth i nums 0%float) (nth j nums 0%float)])
                  pre t w0
             = self' (others 0 nums i j
                        ++ [apply op (nth i nums 0%float) (nth j nums 0%float)])
                     pre t w0).
  { intros. now apply H. }
  same_call HR Add.
  same_call HR Multiply.
  same_call HR SubtractForward.
  same_call HR DivideForward.
  same_call HR SubtractReverse.
  same_call HR DivideReverse.
Qed.

(** The same of [solve_all]. *)
Lemma solve_all_body_calls self self' nums prev_ops target :
  (forall i j op pre t w, i < j < length nums ->
     self (reduce nums i j op) pre t w = self' (reduce nums i j op) pre t w) ->
  forall w, Reducer.solve_all_body self nums prev_ops target w
            = Reducer.solve_all_body self' nums prev_ops target w.
Proof.
  intros H w. unfold Reducer.solve_all_body, size.
  apply bind_ext_r. intros _ w0.
  apply for_each_ext.
  intros i Hi w1. apply in_range in Hi.
  apply for_each_ext. intros j Hj w2. apply in_range in Hj.
  assert (Hij : i < j < length nums) by lia.
  unfold bind. rewrite residual_loop_spec.
  rewrite (at_nth nums i 0%float), (at_nth nums j 0%float) by lia.
  unfold ret at 1 2. cbv beta iota. unfold ret at 2 3. cbv beta iota.
  unfold push_back.
  assert (HR : forall op pre t w3,
             self (others 0 nums i j
                     ++ [apply op (nth i nums 0%float) (nth j nums 0%float)])
                  pre t w3
             = self' (others 0 nums i j
                        ++ [apply op (nth i nums 0%float) (nth j nums 0%float)])
                     pre t w3).
  { intros. now apply H. }
  same_call_unit HR Add.
  same_call_unit HR Multiply.
  same_call_unit HR SubtractForward.
  same_call_unit HR DivideForward.
  same_call_unit HR SubtractReverse.
  same_call_unit HR DivideReverse.
Qed.

(** ** The object between calls *)

Lemma find_first_solution_spec w :
  Reducer.find_first_solution w
  = Returns (match spec_find_first (map of_int (numbers (this w))) (target_of w) with
             | Some tr => (true, commit_first tr w)
             | None => (false, w)
             end).
Proof.
  unfold Reducer.find_first_solution, bind, gets.
  rewrite solve_first_spec. reflexivity.
Qed.

Lemma find_all_solutions_spec w :
  Reducer.find_all_solutions w
  = Returns (tt, record (spec_find_all (map of_int (numbers (this w))) (target_of w)) w).
Proof.
  unfold Reducer.find_all_solutions, bind, gets.
  rewrite solve_all_spec. simpl. now rewrite map_id.
Qed.

Lemma is_valid_input_spec w :
  Reducer.is_valid_input w
  = Returns (spec_exists (map of_int (numbers (this w))) (target_of w), w).
Proof.
  unfold Reducer.is_valid_input, bind, gets.
  now rewrite solution_exists_spec.
Qed.

Lemma print_solutions_spec (w : world) :
  Reducer.print_solutions w
  = Returns (tt, write_lines (solution_lines (solutions (this w))) w).
Proof.
  unfold Reducer.print_solutions, bind at 1, gets.
  set (sols := solutions (this w)).
  set (body := fun i : nat =>
                 modify (write_lines ["Solution:"%string]) ;;
                 si <- at_ sols i ;; Reducer.print_output_cpp si).
  assert (G : forall (rest done : list Trace) (w0 : world),
             sols = done ++ rest ->
             for_each (range (length done) (length sols)) body w0
             = Returns (tt, write_lines (solution_lines rest) w0)).
  { induction rest as [|s rest IH]; intros done w0 E.
    - rewrite range_nil. 2:{ rewrite E, app_nil_r. lia. }
      simpl. unfold ret. now rewrite write_lines_nil.
    - rewrite range_cons. 2:{ rewrite E, length_app. simpl. lia. }
      simpl. unfold bind at 1. unfold body at 1. unfold bind, modify, at_.
      replace (nth_error sols (length done)) with (Some s).
      2:{ rewrite E, nth_error_app2 by lia. now rewrite Nat.sub_diag. }
      unfold ret. rewrite print_output_cpp_spec.
      specialize (IH (done ++ [s])
                     (write_lines s (write_lines ["Solution:"%string] w0))).
      rewrite length_app in IH. simpl in IH.
      replace (length done + 1) with (S (length done)) in IH by lia.
      rewrite IH. 2:{ rewrite E, <- app_assoc. reflexivity. }
      rewrite !write_lines_app. reflexivity. }
  apply (G sols [] w). reflexivity.
Qed.

(** ** The calls made on an object *)

Lemma spec_find_first_stored zs t tr :
  spec_find_first (map of_int zs) t = Some tr ->
  zs <> [] /\ length tr = 4 * (length zs - 1).
Proof.
  intros E. split.
  - intros ->. discriminate E.
  - apply in_spec_find_first, in_spec_find_all in E.
    destruct E as (v & Hin & _).
    apply paths_grouped, grouped_length in Hin.
    now rewrite length_map in Hin.
Qed.

Lemma perform_latest_kept first0 c latest w :
  latest_kept first0 latest w ->
  exists latest' w',
    perform c latest w = Returns (latest', w') /\ latest_kept first0 latest' w'.
Proof.
  intros K. destruct c; unfold perform.
  - exists latest, w. split; [reflexivity|exact K].
  - exists latest, w. split; [reflexivity|exact K].
  - exists latest, w. split; [reflexivity|exact K].
  - eexists latest, _. split; [reflexivity|].
    destruct latest as [[zs tr]|]; exact K.
  - unfold bind. rewrite is_valid_input_spec.
    exists latest, w. split; [reflexivity|exact K].
  - unfold bind at 1, gets at 1. unfold bind at 1.
    rewrite find_first_solution_spec.
    destruct (spec_find_first _ _) as [tr|] eqn:E.
    + exists (Some (numbers (this w), tr)), (commit_first tr w).
      split.
      * unfold bind, Reducer.get_first_solution, gets, ret.
        now rewrite first_solution_commit_first.
      * simpl. split; [reflexivity|]. eapply spec_find_first_stored, E.
    + exists latest, w. split; [reflexivity|exact K].
  - unfold bind. rewrite find_all_solutions_spec.
    eexists latest, _. split; [reflexivity|].
    destruct (record_frame (spec_find_all (map of_int (numbers (this w)))
                                          (target_of w)) w) as (H1 & _).
    unfold latest_kept in *. rewrite H1. exact K.
  - unfold bind. rewrite print_solutions_spec.
    eexists latest, _. split; [reflexivity|].
    destruct latest as [[zs tr]|]; exact K.
  - eexists latest, _. split; [reflexivity|].
    destruct latest as [[zs tr]|]; exact K.
  - eexists latest, _. split; [reflexivity|].
    destruct latest as [[zs tr]|]; exact K.
Qed.

Lemma history_latest_kept first0 calls : forall latest w,
  latest_kept first0 latest w ->
  exists latest' w',
    history calls latest w = Returns (latest', w')
    /\ latest_kept first0 latest' w'.
Proof.
  induction calls as [|c calls IH]; intros latest w K.
  - exists latest, w. split; [reflexivity|exact K].
  - destruct (perform_latest_kept first0 c latest w K) as (l1 & w1 & E1 & K1).
    destruct (IH l1 w1 K1) as (l2 & w2 & E2 & K2).
    exists l2, w2. split; [|exact K2].
    simpl. unfold bind. now rewrite E1.
Qed.

(** Every sequence of calls returns. *)
Lemma history_returns calls w0 :
  exists latest w, history calls None w0 = Returns (latest, w).
Proof.
  destruct (history_latest_kept (first_solution (this w0)) calls None w0
                                eq_refl) as (latest & w & E & _).
  now exists latest, w.
Qed.


(** ** IEEE-754 classes of the operands and results

    The facts about the operations come from the specification of Rocq's
    primitive floats ([FloatAxioms]); no rounding is ever computed, since
    each fact has a zero, an infinity or a NaN among the operands. *)

Module IeeeFacts.

Lemma eval_spec f x y :
  Prim2SF (eval f x y)
  = match f with
    | Plus => SF64add
    | Times => SF64mul
    | Minus => SF64sub
    | Over => SF64div
    end (Prim2SF x) (Prim2SF y).
Proof.
  destruct f; simpl;
    [apply add_spec | apply mul_spec | apply sub_spec | apply div_spec].
Qed.

Lemma sim_refl x : sim x x.
Proof. now left. Qed.

Lemma sim_kind x y : sim x y -> kind_of x = kind_of y.
Proof. intros [->|[H1 H2]]; congruence. Qed.

Lemma sim_trans x y z : sim x y -> sim y z -> sim x z.
Proof.
  intros [->|[H1 H2]] [->|[H3 H4]]; try (now left); right; now split.
Qed.

Lemma sim_of_SF u v :
  Prim2SF u = Prim2SF v \/ (kind_of u = KZero /\ kind_of v = KZero) -> sim u v.
Proof.
  intros [H|H].
  - left. now apply Prim2SF_inj.
  - now right.
Qed.

Lemma nan_unique u v : kind_of u = KNaN -> kind_of v = KNaN -> u = v.
Proof.
  unfold kind_of. intros Hu Hv. apply Prim2SF_inj.
  destruct (Prim2SF u); try discriminate.
  destruct (Prim2SF v); try discriminate. reflexivity.
Qed.

(** Case analysis on the classes of two operands, with the goals that the
    hypotheses exclude closed before anything is computed. *)
Ltac by_kinds x y :=
  unfold wild, kind_of in *; rewrite ?eval_spec;
  destruct (Prim2SF x) as [?s|?s| |?s ?m ?e];
  destruct (Prim2SF y) as [?s|?s| |?s ?m ?e];
  try discriminate; try (exfalso; intuition discriminate).

Lemma mul_comm x y : (x * y = y * x)%float.
Proof.
  apply Prim2SF_inj. rewrite !mul_spec.
  destruct (Prim2SF x) as [sx|sx| |sx mx ex], (Prim2SF y) as [sy|sy| |sy my ey];
    unfold SF64mul, SFmul; try reflexivity; try (now rewrite xorb_comm).
  now rewrite xorb_comm, Pos.mul_comm, Z.add_comm.
Qed.

(** *** The sign of a zero operand *)

Lemma zero_l f x x' y :
  kind_of x = KZero -> kind_of x' = KZero -> sim (eval f x y) (eval f x' y).
Proof.
  intros Hx Hx'. apply sim_of_SF. unfold kind_of in *. rewrite !eval_spec.
  destruct (Prim2SF x) as [s| | |]; try discriminate.
  destruct (Prim2SF x') as [s'| | |]; try discriminate.
  destruct (Prim2SF y) as [sy|sy| |sy my ey]; destruct f; simpl; auto;
    destruct s, s', sy; simpl; auto.
Qed.

Lemma zero_r f x y y' :
  f <> Over ->
  kind_of y = KZero -> kind_of y' = KZero -> sim (eval f x y) (eval f x y').
Proof.
  intros Hf Hy Hy'. apply sim_of_SF. unfold kind_of in *. rewrite !eval_spec.
  destruct (Prim2SF y) as [s| | |]; try discriminate.
  destruct (Prim2SF y') as [s'| | |]; try discriminate.
  destruct (Prim2SF x) as [sx|sx| |sx mx ex]; destruct f; try contradiction;
    simpl; auto; destruct s, s', sx; simpl; auto.
Qed.

Lemma sim_congr f x x' y y' :
  sim x x' -> sim y y' ->
  (f = Over -> kind_of y' <> KZero) ->
  sim (eval f x y) (eval f x' y').
Proof.
  intros Hx Hy Hf.
  apply sim_trans with (eval f x' y).
  - destruct Hx as [->|[H1 H2]]; [apply sim_refl | now apply zero_l].
  - destruct Hy as [->|[H1 H2]]; [apply sim_refl|].
    apply zero_r; try assumption. intros ->. now apply Hf.
Qed.

(** *** The class of a result *)

Lemma kind_mul_zero x y :
  kind_of x = KZero \/ kind_of y = KZero ->
  ~ wild x -> ~ wild y ->
  kind_of (x * y)%float = KZero.
Proof.
  intros H Hx Hy. change (x * y)%float with (eval Times x y).
  by_kinds x y; reflexivity.
Qed.

Lemma kind_zero_over_inf x y :
  kind_of x = KZero -> kind_of y = KInf -> kind_of (x / y)%float = KZero.
Proof.
  intros Hx Hy. change (x / y)%float with (eval Over x y).
  by_kinds x y; reflexivity.
Qed.

Lemma wild_over_zero x y : kind_of y = KZero -> wild (x / y)%float.
Proof.
  intros Hy. change (x / y)%float with (eval Over x y).
  by_kinds x y; simpl; auto.
Qed.

Lemma kind_nan_l f x y : kind_of x = KNaN -> kind_of (eval f x y) = KNaN.
Proof. intros Hx. by_kinds x y; destruct f; reflexivity. Qed.

Lemma kind_nan_r f x y : kind_of y = KNaN -> kind_of (eval f x y) = KNaN.
Proof. intros Hy. by_kinds x y; destruct f; reflexivity. Qed.

Lemma wild_l f x y : wild x -> wild (eval f x y).
Proof.
  intros Hx. by_kinds x y; destruct f; simpl; auto;
    repeat match goal with s : bool |- _ => destruct s end; simpl; auto.
Qed.

Lemma wild_r f x y :
  wild y -> wild (eval f x y) \/ kind_of (eval f x y) = KZero.
Proof.
  intros Hy. by_kinds x y; destruct f; simpl; auto;
    repeat match goal with s : bool |- _ => destruct s end; simpl; auto.
Qed.

Lemma not_wild_kind x : ~ wild x -> kind_of x = KZero \/ kind_of x = KFinite.
Proof. unfold wild. destruct (kind_of x); intuition congruence. Qed.

Lemma is_zero_kind x : PrimFloat.is_zero x = true <-> kind_of x = KZero.
Proof.
  unfold PrimFloat.is_zero, kind_of. rewrite eqb_spec.
  change (Prim2SF PrimFloat.zero) with (S754_zero false).
  destruct (Prim2SF x) as [s|s| |s m e]; simpl;
    repeat match goal with s : bool |- _ => destruct s end;
    split; intros H; try reflexivity; discriminate.
Qed.

End IeeeFacts.
Import IeeeFacts.

(** *** One step without dividing by zero

    Whatever an operation makes of [x] and [y], some operation that does not
    divide by zero makes a value that tracks it out of values [x'] and [y']
    that track [x] and [y]: the same operation when the values are the same
    up to the sign of a zero and the divisor is not zero, and otherwise a
    product with a zero, or a zero over an infinity. *)
Lemma track_arith f x y x' y' :
  tracks x x' -> tracks y y' ->
  ((f = Over -> kind_of y' <> KZero) /\ tracks (eval f x y) (eval f x' y'))
  \/ tracks (eval f x y) (x' * y')%float
  \/ (kind_of x' <> KZero /\ tracks (eval f x y) (y' / x')%float)
  \/ (kind_of y' <> KZero /\ tracks (eval f x y) (x' / y')%float).
Proof.
  intros [Hx|[Hx' Hx]] [Hy|[Hy' Hy]].
  - (* both the same up to the sign of a zero *)
    destruct f.
    1-3: left; split; [discriminate|]; left; apply sim_congr; auto; discriminate.
    destruct (kind_of y') eqn:Ky.
    2-4: left; split; [congruence|]; left; apply sim_congr; auto; congruence.
    pose proof (sim_kind _ _ Hy) as Ky0. rewrite Ky in Ky0.
    pose proof (wild_over_zero x y Ky0) as Hw.
    destruct (kind_of x') eqn:Kx.
    + right; left. right. split; [|exact Hw].
      apply kind_mul_zero; unfold wild; intuition congruence.
    + right; left. right. split; [|exact Hw].
      apply kind_mul_zero; unfold wild; intuition congruence.
    + right; right; left. split; [congruence|]. right. split; [|exact Hw].
      now apply kind_zero_over_inf.
    + right; left. left. left.
      pose proof (sim_kind _ _ Hx) as Kx0. rewrite Kx in Kx0.
      apply nan_unique.
      * now apply (kind_nan_l Over).
      * now apply (kind_nan_l Times).
  - (* [y'] is a zero where [y] is wild *)
    destruct (kind_of x') eqn:Kx.
    + right; left. pose proof (sim_kind _ _ Hx) as Kx0. rewrite Kx in Kx0.
      assert (Kz : kind_of (x' * y')%float = KZero).
      { apply kind_mul_zero; unfold wild; intuition congruence. }
      destruct (wild_r f x y Hy) as [Hw|Hz].
      * right. now split.
      * left. right. now split.
    + right; left. pose proof (sim_kind _ _ Hx) as Kx0. rewrite Kx in Kx0.
      assert (Kz : kind_of (x' * y')%float = KZero).
      { apply kind_mul_zero; unfold wild; intuition congruence. }
      destruct (wild_r f x y Hy) as [Hw|Hz].
      * right. now split.
      * left. right. now split.
    + right; right; left. split; [congruence|]. right. split.
      * now apply kind_zero_over_inf.
      * apply wild_l. left. now rewrite (sim_kind _ _ Hx).
    + right; left. left. left.
      pose proof (sim_kind _ _ Hx) as Kx0. rewrite Kx in Kx0.
      apply nan_unique.
      * now apply kind_nan_l.
      * now apply (kind_nan_l Times).
  - (* [x'] is a zero where [x] is wild *)
    pose proof (wild_l f x y Hx) as Hw.
    destruct (kind_of y') eqn:Ky.
    + right; left. right. split; [|exact Hw].
      apply kind_mul_zero; unfold wild; intuition congruence.
    + right; left. right. split; [|exact Hw].
      apply kind_mul_zero; unfold wild; intuition congruence.
    + right; right; right. split; [congruence|]. right. split; [|exact Hw].
      now apply kind_zero_over_inf.
    + right; left. left. left.
      pose proof (sim_kind _ _ Hy) as Ky0. rewrite Ky in Ky0.
      apply nan_unique.
      * now apply kind_nan_r.
      * now apply (kind_nan_r Times).
  - (* both are zeros where [x] and [y] are wild *)
    right; left. right. split; [|now apply wild_l].
    apply kind_mul_zero; unfold wild; intuition congruence.
Qed.

Lemma in_operations op : In op operations.
Proof. destruct op; simpl; auto 10. Qed.

Lemma in_safe_paths_S d nums i j op tr v :
  length nums <> 1 ->
  i < j < length nums ->
  divides_by_zero op (nth i nums 0%float) (nth j nums 0%float) = false ->
  In (tr, v) (safe_paths d (reduce nums i j op)) ->
  In (step_tokens nums i j op ++ tr, v) (safe_paths (S d) nums).
Proof.
  intros Hne Hij Hz Hin.
  destruct nums as [|x [|x' nums]]; [simpl in Hij; lia | now contradiction Hne |].
  cbn [safe_paths].
  apply in_flat_map. exists i. split; [apply in_range; lia|].
  apply in_flat_map. exists j. split; [apply in_range; lia|].
  apply in_flat_map. exists op. split; [apply in_operations|].
  rewrite Hz. apply in_map_iff. exists (tr, v). split; [reflexivity|assumption].
Qed.

(** A path that skips divisions by zero is a path of the code. *)
Lemma safe_paths_paths d : forall nums p,
  In p (safe_paths d nums) -> In p (paths d nums).
Proof.
  induction d as [|d IH]; intros nums p Hin.
  - destruct nums as [|x [|x' nums]]; assumption.
  - destruct nums as [|x [|x' nums]]; try assumption.
    cbn [safe_paths paths] in *.
    apply in_flat_map in Hin. destruct Hin as (i & Hi & Hin).
    apply in_flat_map in Hin. destruct Hin as (j & Hj & Hin).
    apply in_flat_map in Hin. destruct Hin as (op & Hop & Hin).
    apply in_flat_map. exists i. split; [assumption|].
    apply in_flat_map. exists j. split; [assumption|].
    apply in_flat_map. exists op. split; [assumption|].
    destruct (divides_by_zero op _ _); [contradiction|].
    apply in_map_iff in Hin. destruct Hin as (q & <- & Hq).
    apply in_map. now apply IH.
Qed.

Lemma tracks_refl x : tracks x x.
Proof. left. apply sim_refl. Qed.

Lemma not_zero_kind x : kind_of x <> KZero -> PrimFloat.is_zero x = false.
Proof.
  intros H. destruct (PrimFloat.is_zero x) eqn:E; [|reflexivity].
  apply is_zero_kind in E. contradiction.
Qed.

(** A step of the code, followed without dividing by zero. *)
Lemma safe_step op a b a' b' :
  tracks a a' -> tracks b b' ->
  exists op',
    divides_by_zero op' a' b' = false
    /\ tracks (apply op a b) (apply op' a' b').
Proof.
  intros Ha Hb.
  assert (Fwd : forall f,
             exists op',
               divides_by_zero op' a' b' = false
               /\ tracks (eval f a b) (apply op' a' b')).
  { intros f.
    destruct (track_arith f a b a' b' Ha Hb)
      as [[Hs Ht]|[Ht|[[Hk Ht]|[Hk Ht]]]].
    - destruct f;
        [exists Add | exists Multiply | exists SubtractForward | exists DivideForward];
        (split; [|exact Ht]); try reflexivity.
      simpl. now apply not_zero_kind, Hs.
    - now exists Multiply.
    - exists DivideReverse. split; [now apply not_zero_kind|exact Ht].
    - exists DivideForward. split; [now apply not_zero_kind|exact Ht]. }
  assert (Bwd : forall f,
             f = Minus \/ f = Over ->
             exists op',
               divides_by_zero op' a' b' = false
               /\ tracks (eval f b a) (apply op' a' b')).
  { intros f Hf.
    destruct (track_arith f b a b' a' Hb Ha)
      as [[Hs Ht]|[Ht|[[Hk Ht]|[Hk Ht]]]].
    - destruct Hf as [->| ->];
        [exists SubtractReverse | exists DivideReverse];
        (split; [|exact Ht]); try reflexivity.
      simpl. now apply not_zero_kind, Hs.
    - exists Multiply. split; [reflexivity|]. simpl. now rewrite mul_comm.
    - exists DivideForward. split; [now apply not_zero_kind|exact Ht].
    - exists DivideReverse. split; [now apply not_zero_kind|exact Ht]. }
  destruct op.
  - apply (Fwd Plus).
  - apply (Fwd Times).
  - apply (Fwd Minus).
  - apply (Fwd Over).
  - apply (Bwd Minus). now left.
  - apply (Bwd Over). now right.
Qed.

Lemma tracks_others S S' i j : forall k,
  Forall2 tracks S S' -> Forall2 tracks (others k S i j) (others k S' i j).
Proof.
  intros k H. revert k. induction H as [|x x' S S' Hx HS IH]; intros k; simpl.
  - constructor.
  - destruct (negb (k =? i) && negb (k =? j)); [constructor|]; auto.
Qed.

Lemma tracks_nth S S' i :
  Forall2 tracks S S' -> tracks (nth i S 0%float) (nth i S' 0%float).
Proof.
  intros H. revert i. induction H as [|x x' S S' Hx HS IH]; intros [|i]; simpl;
    auto using tracks_refl.
Qed.

(** Every path of the code is followed, step by step, by a path that never
    divides by zero and ends in a value that tracks its own. *)
Lemma follow_safely d : forall S S' tr v,
  Forall2 tracks S S' ->
  In (tr, v) (paths d S) ->
  exists tr' v', In (tr', v') (safe_paths d S') /\ tracks v v'.
Proof.
  induction d as [|d IH]; intros S S' tr v HS Hin.
  - destruct S as [|x [|y S]]; simpl in Hin; try contradiction.
    destruct Hin as [E|[]]. inversion E; subst.
    inversion HS as [|? x' ? S0' Hx HS0]; subst. inversion HS0; subst.
    exists [], x'. split; [now left|assumption].
  - destruct (Nat.eq_dec (length S) 1) as [E|E].
    + destruct S as [|x [|y S]]; try discriminate.
      destruct Hin as [E'|[]]. inversion E'; subst.
      inversion HS as [|? x' ? S0' Hx HS0]; subst. inversion HS0; subst.
      exists [], x'. split; [now left|assumption].
    + apply in_paths_S in Hin; [|assumption].
      destruct Hin as (i & j & op & tr1 & Hij & -> & Hin).
      pose proof (Forall2_length HS) as Hlen.
      destruct (safe_step op (nth i S 0%float) (nth j S 0%float)
                          (nth i S' 0%float) (nth j S' 0%float))
        as (op' & Hsafe & Htr); try now apply tracks_nth.
      assert (HS1 : Forall2 tracks (reduce S i j op) (reduce S' i j op')).
      { unfold reduce. apply Forall2_app.
        - now apply tracks_others.
        - constructor; [assumption|constructor]. }
      destruct (IH _ _ _ _ HS1 Hin) as (tr' & v' & Hin' & Hv).
      exists (step_tokens S' i j op' ++ tr'), v'. split; [|assumption].
      apply in_safe_paths_S; try assumption; lia.
Qed.

(** *** The test of the base case *)

Lemma epsilon_SF : Prim2SF epsilon = S754_finite false 6044629098073146 (-79).
Proof. vm_compute. reflexivity. Qed.

Lemma close_not_wild v t : close v t = true -> ~ wild v.
Proof.
  intros Hc Hw. apply (wild_l Minus v t) in Hw.
  unfold close, fabs in Hc. simpl eval in Hw.
  rewrite ltb_spec, abs_spec, epsilon_SF in Hc.
  unfold wild, kind_of in Hw.
  destruct (Prim2SF (v - t)) as [s|s| |s m e];
    destruct Hw as [Hw|Hw]; try discriminate Hw; discriminate Hc.
Qed.

Lemma close_sim v v' t : sim v v' -> close v t = close v' t.
Proof.
  intros H. unfold close, fabs. f_equal.
  destruct (sim_congr Minus v v' t t H (sim_refl t)) as [E|[K K']];
    [discriminate | simpl in E; now rewrite E |].
  simpl in K, K'. apply Prim2SF_inj. rewrite !abs_spec.
  unfold kind_of in K, K'.
  destruct (Prim2SF (v - t)); try discriminate.
  destruct (Prim2SF (v' - t)); try discriminate. reflexivity.
Qed.

(** What the code can reach, it can reach without dividing by zero. *)
Lemma reach_without_dividing_by_zero nums t :
  spec_exists nums t = true -> reachable_without_dividing_by_zero nums t = true.
Proof.
  unfold spec_exists, reachable_without_dividing_by_zero, all_paths.
  intros H. apply existsb_exists in H. destruct H as ([tr v] & Hin & Hv).
  unfold reaches in Hv. simpl in Hv.
  assert (HS : Forall2 tracks nums nums).
  { clear. induction nums; constructor; auto using tracks_refl. }
  destruct (follow_safely _ _ _ _ _ HS Hin) as (tr' & v' & Hin' & [Hs|[_ Hw]]).
  - apply existsb_exists. exists (tr', v'). split; [assumption|].
    unfold reaches. simpl. now rewrite <- (close_sim v v' t Hs).
  - now apply close_not_wild in Hv.
Qed.

Lemma reach_dividing_or_not nums t :
  spec_exists nums t = reachable_without_dividing_by_zero nums t.
Proof.
  destruct (spec_exists nums t) eqn:E.
  - symmetry. now apply reach_without_dividing_by_zero.
  - destruct (reachable_without_dividing_by_zero nums t) eqn:E'; [|reflexivity].
    unfold reachable_without_dividing_by_zero in E'.
    apply existsb_exists in E'. destruct E' as (p & Hin & Hp).
    apply safe_paths_paths in Hin.
    assert (spec_exists nums t = true); [|congruence].
    apply existsb_exists. now exists p.
Qed.

Lemma spec_find_all_none nums t :
  spec_exists nums t = false -> spec_find_all nums t = [].
Proof.
  rewrite spec_exists_find_first, spec_find_first_find_all.
  now destruct (spec_find_all nums t).
Qed.

(** * The claims *)

(** C1. Every trace that [solve_first] stores or [solve_all] collects,
    started on the sequence [nums] with an empty trace, replays on [nums]:
    its steps, taken in order, reduce the sequence to a single value [v] with
    [fabs (v - target) < 1e-8].  Both searches return, for every sequence. *)
Theorem C1_traces_replay_to_target (nums : list double) (target : double) (w : world) :
  (exists b w1,
      Reducer.solve_first nums [] target w = Returns (b, w1)
      /\ (b = true -> replays_to nums target (first_solution (this w1))))
  /\ (exists w2 found,
         Reducer.solve_all nums [] target w = Returns (tt, w2)
         /\ solutions (this w2) = solutions (this w) ++ found
         /\ Forall (replays_to nums target) found).
Proof.
  split.
  - rewrite solve_first_spec.
    destruct (spec_find_first nums target) as [tr|] eqn:E.
    + exists true, (commit_first ([] ++ tr) w). split; [reflexivity|]. intros _.
      rewrite first_solution_commit_first. simpl.
      apply in_spec_find_first, in_spec_find_all in E.
      destruct E as (v & Hin & Hv). exists v. split; [|assumption].
      now apply (paths_replay (length nums - 1)).
    + exists false, w. split; [reflexivity|]. discriminate.
  - rewrite solve_all_spec.
    exists (record (map (app []) (spec_find_all nums target)) w),
           (spec_find_all nums target).
    split; [reflexivity|]. split.
    + rewrite solutions_record. f_equal. simpl. apply map_id.
    + apply Forall_forall. intros tr Hin.
      apply in_spec_find_all in Hin. destruct Hin as (v & Hin & Hv).
      exists v. split; [|assumption].
      now apply (paths_replay (length nums - 1)).
Qed.

(** The first solution of 5, 5, 3, 2 for 24, as the code finds it:
    5 + 5 = 10, 10 - 2 = 8, 3 * 8 = 24. *)
Example first_solution_5532 :
  exists w,
    Reducer.find_first_solution (fresh [5; 5; 3; 2]%Z 24%float) = Returns (true, w)
    /\ first_solution (this w)
       = ["5.000000"; "5.000000"; "10.000000"; "+";
          "10.000000"; "2.000000"; "8.000000"; "-";
          "3.000000"; "8.000000"; "24.000000"; "*"]%string.
Proof.
  eexists. split; [vm_compute; reflexivity|]. vm_compute. reflexivity.
Qed.

(** The first solution of 3, 3, 8, 8 for 24 is 8 / (3 - 8 / 3); it replays
    on the numbers, by the values taken out of the sequence and not by the
    six decimals printed for them. *)
Example first_solution_3388_replays :
  exists w,
    Reducer.find_first_solution (fresh [3; 3; 8; 8]%Z 24%float) = Returns (true, w)
    /\ first_solution (this w)
       = ["8.000000"; "3.000000"; "2.666667"; "/";
          "3.000000"; "2.666667"; "0.333333"; "-";
          "8.000000"; "0.333333"; "24.000000"; "/"]%string
    /\ replays_to_bool (map of_int [3; 3; 8; 8]%Z) 24%float (first_solution (this w))
       = true.
Proof.
  eexists.
  split; [vm_compute; reflexivity|].
  split; vm_compute; reflexivity.
Qed.

(** A trace records the values as printed, to six decimals.  With
    30000001, 10000000, 3, 1 the quotient r = 30000001 / 10000000 and 3 both
    print as 3.000000, and the searches for r / 3 and for 3 / r store the
    same trace; it has the replays of both, each within [epsilon] of one of
    the two targets only.  So a trace replays to its target by a choice of
    entries among those that print as its operands, which is how [Replays]
    words it. *)
Example one_trace_for_two_targets :
  let nums := map of_int [30000001; 10000000; 3; 1]%Z in
  let r := (of_int 30000001 / of_int 10000000)%float in
  let tr := ["30000001.000000"; "10000000.000000"; "3.000000"; "/";
             "3.000000"; "1.000000"; "3.000000"; "*";
             "3.000000"; "3.000000"; "1.000000"; "/"]%string in
  spec_find_first nums (r / 3)%float = Some tr
  /\ spec_find_first nums (3 / r)%float = Some tr
  /\ map (fun v => (close v (r / 3)%float, close v (3 / r)%float)) (replay tr nums)
     = [(true, false); (false, true); (false, true); (true, false)].
Proof.
  cbv zeta.
  split; [vm_compute; reflexivity|].
  split; vm_compute; reflexivity.
Qed.

(** C2. The existence check and the first-solution search agree on every
    sequence and target: both return, with the same boolean; on [true] the
    search has stored the trace of the first path that reaches the target, on
    [false] it has changed nothing.  The same holds of the public
    [is_valid_input] and [find_first_solution]. *)
Theorem C2_exists_iff_first_found (nums : list double) (target : double) (w : world) :
  (exists b w1,
      Reducer.solution_exists nums target w = Returns (b, w)
      /\ Reducer.solve_first nums [] target w = Returns (b, w1)
      /\ (b = true -> spec_find_first nums target = Some (first_solution (this w1)))
      /\ (b = false -> spec_find_first nums target = None /\ w1 = w))
  /\ (exists b w1,
         Reducer.is_valid_input w = Returns (b, w)
         /\ Reducer.find_first_solution w = Returns (b, w1)).
Proof.
  assert (G : forall nums0 t0,
             exists b w1,
               Reducer.solution_exists nums0 t0 w = Returns (b, w)
               /\ Reducer.solve_first nums0 [] t0 w = Returns (b, w1)
               /\ (b = true ->
                   spec_find_first nums0 t0 = Some (first_solution (this w1)))
               /\ (b = false -> spec_find_first nums0 t0 = None /\ w1 = w)).
  { intros nums0 t0. rewrite solution_exists_spec, solve_first_spec.
    rewrite spec_exists_find_first.
    destruct (spec_find_first nums0 t0) as [tr|].
    - exists true, (commit_first ([] ++ tr) w).
      repeat split; try reflexivity; discriminate.
    - exists false, w. repeat split; try reflexivity; discriminate. }
  split.
  - apply G.
  - unfold Reducer.is_valid_input, Reducer.find_first_solution, bind, gets.
    destruct (G (map of_int (numbers (this w))) (target_of w))
      as (b & w1 & H1 & H2 & _).
    exists b, w1. split; assumption.
Qed.

(** C3. When a solution exists, the trace [solve_first] stores is the trace
    of the first path, in the enumeration order of the specification (pairs
    [i < j] with [i] ascending then [j] ascending, then Add, Multiply,
    SubtractForward, DivideForward, SubtractReverse, DivideReverse), that
    reaches the target; and it is the first trace that [solve_all] adds to
    [solutions]. *)
Theorem C3_first_is_first_in_order (nums : list double) (target : double) (w : world) :
  Reducer.solution_exists nums target w = Returns (true, w) ->
  exists tr rest w1 w2,
    Reducer.solve_first nums [] target w = Returns (true, w1)
    /\ first_solution (this w1) = tr
    /\ option_map fst (find (reaches target) (all_paths nums)) = Some tr
    /\ Reducer.solve_all nums [] target w = Returns (tt, w2)
    /\ solutions (this w2) = solutions (this w) ++ tr :: rest.
Proof.
  rewrite solution_exists_spec, solve_first_spec, solve_all_spec.
  rewrite spec_exists_find_first.
  change (option_map fst (find (reaches target) (all_paths nums)))
    with (spec_find_first nums target).
  pose proof (spec_find_first_find_all nums target) as Hhd.
  destruct (spec_find_first nums target) as [tr|]; [|intros E; inversion E].
  intros _.
  destruct (spec_find_all nums target) as [|tr' rest] eqn:Hall; [discriminate|].
  simpl in Hhd. inversion Hhd; subst tr'.
  exists tr, rest, (commit_first ([] ++ tr) w),
         (record (map (app []) (tr :: rest)) w).
  repeat split.
  rewrite solutions_record. f_equal. simpl. f_equal. apply map_id.
Qed.

Lemma C3_first_is_first_in_order_witness :
  exists tr rest w1 w2,
    Reducer.solve_first (map of_int [5; 5; 3; 2]%Z) [] 24%float (fresh [5; 5; 3; 2]%Z 24%float)
    = Returns (true, w1)
    /\ first_solution (this w1) = tr
    /\ option_map fst (find (reaches 24%float) (all_paths (map of_int [5; 5; 3; 2]%Z)))
       = Some tr
    /\ Reducer.solve_all (map of_int [5; 5; 3; 2]%Z) [] 24%float (fresh [5; 5; 3; 2]%Z 24%float)
       = Returns (tt, w2)
    /\ solutions (this w2) = solutions (this (fresh [5; 5; 3; 2]%Z 24%float)) ++ tr :: rest.
Proof.
  apply (C3_first_is_first_in_order (map of_int [5; 5; 3; 2]%Z) 24%float
                                    (fresh [5; 5; 3; 2]%Z 24%float)).
  vm_compute. reflexivity.
Defined.

(** C4 (the code departs from it). On the object [Solution({12, 12}, 24)],
    [get_all_solutions] returns one trace after a first call of
    [find_all_solutions] and the same trace twice after a second call: the
    traces of the first call persist into the result of the second. *)
Theorem C4_find_all_solutions_accumulates :
  exists w1 w2 tr,
    Reducer.find_all_solutions (fresh [12; 12]%Z 24%float) = Returns (tt, w1)
    /\ Reducer.find_all_solutions w1 = Returns (tt, w2)
    /\ Reducer.get_all_solutions w1 = Returns ([tr], w1)
    /\ Reducer.get_all_solutions w2 = Returns ([tr; tr], w2)
    /\ tr = ["12.000000"; "12.000000"; "24.000000"; "+"]%string.
Proof.
  do 3 eexists.
  split; [vm_compute; reflexivity|].
  split; [vm_compute; reflexivity|].
  split; [vm_compute; reflexivity|].
  split; vm_compute; reflexivity.
Qed.

(** C5. A target that no path reaches without dividing by zero is not
    reported as reached: the existence check and both first-solution searches
    return [false], the all-solutions search records no trace, and nothing is
    stored or printed.  A division by zero is no undefined behaviour of the
    model: the quotient is an infinity or NaN, and the searches return. *)
Theorem C5_no_success_through_division_by_zero
        (nums : list double) (target : double) (w : world) :
  reachable_without_dividing_by_zero nums target = false ->
  Reducer.solution_exists nums target w = Returns (false, w)
  /\ Reducer.solve_first nums [] target w = Returns (false, w)
  /\ Reducer.solve_all nums [] target w = Returns (tt, w)
  /\ Judge.solve nums [] target w = Returns (false, w).
Proof.
  intros H. rewrite <- reach_dividing_or_not in H.
  rewrite solution_exists_spec, solve_first_spec, solve_all_spec, solve_spec.
  rewrite (spec_find_all_none _ _ H), H.
  rewrite spec_exists_find_first in H.
  destruct (spec_find_first nums target); [discriminate|].
  repeat split.
Qed.

Lemma C5_no_success_through_division_by_zero_witness :
  let nums := map of_int [0; 4; 6; 1]%Z in
  let w := fresh [0; 4; 6; 1]%Z infinity in
  Reducer.solution_exists nums infinity w = Returns (false, w)
  /\ Reducer.solve_first nums [] infinity w = Returns (false, w)
  /\ Reducer.solve_all nums [] infinity w = Returns (tt, w)
  /\ Judge.solve nums [] infinity w = Returns (false, w).
Proof.
  intros nums w.
  apply (C5_no_success_through_division_by_zero nums infinity w).
  vm_compute. reflexivity.
Defined.

(** When the target can be reached without it too, the all-solutions search
    does record paths through a division by zero: with 0, 4, 6, 1 and the
    target 1, the path 4 / 0 = inf, 6 / inf = 0, 1 + 0 = 1. *)
Example find_all_records_a_division_by_zero :
  exists w,
    Reducer.find_all_solutions (fresh [0; 4; 6; 1]%Z 1%float) = Returns (tt, w)
    /\ existsb (fun tr =>
                  if list_eq_dec string_dec tr
                       ["4.000000"; "0.000000"; "inf"; "/";
                        "6.000000"; "inf"; "0.000000"; "/";
                        "1.000000"; "0.000000"; "1.000000"; "+"]%string
                  then true else false)
               (solutions (this w)) = true.
Proof.
  rewrite find_all_solutions_spec. eexists. split; [reflexivity|].
  rewrite solutions_record. vm_compute. reflexivity.
Qed.

(** C6, as the claim states it, fails: on the empty sequence the three public
    searches return normally, [false], [false] and no trace, and no outcome
    other than a return is produced. *)
Lemma C6_empty_input_returns_normally :
  Reducer.is_valid_input (fresh [] 24%float) = Returns (false, fresh [] 24%float)
  /\ Reducer.find_first_solution (fresh [] 24%float) = Returns (false, fresh [] 24%float)
  /\ Reducer.find_all_solutions (fresh [] 24%float) = Returns (tt, fresh [] 24%float).
Proof.
  split; [vm_compute; reflexivity|].
  split; vm_compute; reflexivity.
Qed.

(** C6, amended. On the empty sequence no search fails: the existence check
    and the first-solution search return [false], the all-solutions search
    records nothing, and the object and [cout] are left as they were;
    likewise for the public methods of an object whose [numbers] is empty. *)
Theorem C6_empty_input_is_no_solution (prev_ops : Trace) (t : double) (w : world)
        (sols : list Trace) (first : Trace) (cap : Z) (out : list string) :
  Reducer.solution_exists [] t w = Returns (false, w)
  /\ Reducer.solve_first [] prev_ops t w = Returns (false, w)
  /\ Reducer.solve_all [] prev_ops t w = Returns (tt, w)
  /\ (let w0 := mkWorld (mkSolution sols first cap [] t) out in
      Reducer.is_valid_input w0 = Returns (false, w0)
      /\ Reducer.find_first_solution w0 = Returns (false, w0)
      /\ Reducer.find_all_solutions w0 = Returns (tt, w0)).
Proof.
  split; [now rewrite solution_exists_spec|].
  split; [now rewrite solve_first_spec|].
  split; [now rewrite solve_all_spec|].
  cbv zeta.
  rewrite is_valid_input_spec, find_first_solution_spec, find_all_solutions_spec.
  repeat split.
Qed.

(** C7. On a sequence of one value [v], the existence check returns the
    boolean [fabs (v - target) < 1e-8], the subtraction and the comparison
    being those of binary64 arithmetic, and changes nothing; so does
    [is_valid_input] on an object whose [numbers] holds one [int]. *)
Theorem C7_single_value (v target : double) (w : world)
        (z : Z) (sols : list Trace) (first : Trace) (cap : Z) (out : list string) :
  Reducer.solution_exists [v] target w
  = Returns ((fabs (v - target) <? 1e-8)%float, w)
  /\ (let w0 := mkWorld (mkSolution sols first cap [z] target) out in
      Reducer.is_valid_input w0
      = Returns ((fabs (of_int z - target) <? 1e-8)%float, w0)).
Proof.
  split.
  - reflexivity.
  - cbv zeta. unfold Reducer.is_valid_input, bind, gets. reflexivity.
Qed.

(** C8. Every trace that [solve_first] stores or [solve_all] collects,
    started on [nums] with an empty trace, is made of [length nums - 1]
    groups of four tokens (first operand, second operand, result, operator
    symbol), so of [4 * (length nums - 1)] tokens. *)
Theorem C8_trace_length (nums : list double) (target : double) (w : world) :
  (exists b w1,
      Reducer.solve_first nums [] target w = Returns (b, w1)
      /\ (b = true ->
          Grouped (length nums - 1) (first_solution (this w1))
          /\ length (first_solution (this w1)) = 4 * (length nums - 1)))
  /\ (exists w2 found,
         Reducer.solve_all nums [] target w = Returns (tt, w2)
         /\ solutions (this w2) = solutions (this w) ++ found
         /\ Forall (fun tr => Grouped (length nums - 1) tr
                              /\ length tr = 4 * (length nums - 1)) found).
Proof.
  assert (G : forall tr, In tr (spec_find_all nums target) ->
                Grouped (length nums - 1) tr
                /\ length tr = 4 * (length nums - 1)).
  { intros tr Hin. apply in_spec_find_all in Hin. destruct Hin as (v & Hin & _).
    apply paths_grouped in Hin. split; [assumption|]. now apply grouped_length. }
  split.
  - rewrite solve_first_spec.
    destruct (spec_find_first nums target) as [tr|] eqn:E.
    + exists true, (commit_first ([] ++ tr) w). split; [reflexivity|]. intros _.
      rewrite first_solution_commit_first. simpl.
      now apply G, in_spec_find_first.
    + exists false, w. split; [reflexivity|]. discriminate.
  - rewrite solve_all_spec.
    exists (record (map (app []) (spec_find_all nums target)) w),
           (spec_find_all nums target).
    split; [reflexivity|]. split.
    + rewrite solutions_record. f_equal. simpl. apply map_id.
    + now apply Forall_forall.
Qed.

(** C9. The bodies of the three searches make their recursive calls on the
    reduced sequences [reduce nums i j op] only (the values at the positions
    other than [i] and [j], then the result), each exactly one element shorter
    than [nums]; so a recursion allowed [length nums - 1] nested calls, or
    more, returns, for each of the three searches. *)
Theorem C9_recursion_shrinks_and_ends (nums : list double) (target : double) (w : world) :
  (forall i j op, i < j < length nums ->
     length (reduce nums i j op) + 1 = length nums)
  /\ (forall self self',
        (forall i j op t w0, i < j < length nums ->
           self (reduce nums i j op) t w0 = self' (reduce nums i j op) t w0) ->
        Reducer.solution_exists_body self nums target w
        = Reducer.solution_exists_body self' nums target w)
  /\ (forall found self self' prev_ops,
        (forall i j op pre t w0, i < j < length nums ->
           self (reduce nums i j op) pre t w0 = self' (reduce nums i j op) pre t w0) ->
        Reducer.solve_first_body found self nums prev_ops target w
        = Reducer.solve_first_body found self' nums prev_ops target w)
  /\ (forall self self' prev_ops,
        (forall i j op pre t w0, i < j < length nums ->
           self (reduce nums i j op) pre t w0 = self' (reduce nums i j op) pre t w0) ->
        Reducer.solve_all_body self nums prev_ops target w
        = Reducer.solve_all_body self' nums prev_ops target w)
  /\ (forall depth, length nums - 1 <= depth ->
        (exists b, Reducer.solution_exists_at depth nums target w = Returns (b, w))
        /\ (exists b w1,
               Reducer.solve_first_at Reducer.found_first depth nums [] target w
               = Returns (b, w1))
        /\ (exists w2, Reducer.solve_all_at depth nums [] target w = Returns (tt, w2))).
Proof.
  split; [|split; [|split; [|split]]].
  - intros i j op Hij. now apply length_reduce.
  - intros self self' H. now apply solution_exists_body_calls.
  - intros found self self' prev_ops H. now apply solve_first_body_calls.
  - intros self self' prev_ops H. now apply solve_all_body_calls.
  - intros depth Hd. repeat split.
    + rewrite solution_exists_at_spec by lia. unfold first_result.
      destruct (find _ _); eexists; reflexivity.
    + rewrite (solve_first_at_spec _ commit_first found_first_spec) by lia.
      unfold first_result. destruct (find _ _); do 2 eexists; reflexivity.
    + rewrite solve_all_at_spec by lia. eexists; reflexivity.
Qed.

(** C10, as the claim states it, fails in its last clause: the trace
    [get_first_solution] returns can be empty after a call that succeeded.
    On the single number 24 with target 24 the call returns
    [true] and stores the trace it was given, the empty one (line 125); once
    the client has assigned [{1, 1}] to [numbers], the next call returns
    [false] and [get_first_solution] returns the empty trace.  So the empty
    trace does not imply that no earlier call has succeeded. *)
Lemma C10_empty_after_a_success :
  (Reducer.find_first_solution (fresh [24]%Z 24%float)
   = Returns (true, fresh [24]%Z 24%float)
   /\ Reducer.get_first_solution (fresh [24]%Z 24%float)
      = Returns ([], fresh [24]%Z 24%float)
   /\ assign_numbers [1; 1]%Z (fresh [24]%Z 24%float)
      = Returns (tt, fresh [1; 1]%Z 24%float)
   /\ Reducer.find_first_solution (fresh [1; 1]%Z 24%float)
      = Returns (false, fresh [1; 1]%Z 24%float)
   /\ Reducer.get_first_solution (fresh [1; 1]%Z 24%float)
      = Returns ([], fresh [1; 1]%Z 24%float)
   /\ history [FindFirstSolution; AssignNumbers [1; 1]%Z] None
              (fresh [24]%Z 24%float)
      = Returns (Some ([24]%Z, []), fresh [1; 1]%Z 24%float))
  /\ ~ (forall calls w0 latest w w',
          first_solution (this w0) = [] ->
          history calls None w0 = Returns (latest, w) ->
          Reducer.find_first_solution w = Returns (false, w') ->
          Reducer.get_first_solution w' = Returns ([], w') ->
          latest = None).
Proof.
  assert (H : history [FindFirstSolution; AssignNumbers [1; 1]%Z] None
                      (fresh [24]%Z 24%float)
              = Returns (Some ([24]%Z, []), fresh [1; 1]%Z 24%float))
    by (vm_compute; reflexivity).
  assert (F : Reducer.find_first_solution (fresh [1; 1]%Z 24%float)
              = Returns (false, fresh [1; 1]%Z 24%float))
    by (vm_compute; reflexivity).
  split.
  - split; [vm_compute; reflexivity|].
    split; [reflexivity|].
    split; [reflexivity|].
    split; [exact F|].
    split; [reflexivity|exact H].
  - intros G.
    specialize (G [FindFirstSolution; AssignNumbers [1; 1]%Z]
                  (fresh [24]%Z 24%float) (Some ([24]%Z, []))
                  (fresh [1; 1]%Z 24%float) (fresh [1; 1]%Z 24%float)
                  eq_refl H F eq_refl).
    discriminate G.
Qed.

(** C10. A call of [find_first_solution] that returns [false] leaves the
    object as it was, [first_solution] included.  After any sequence of
    calls on an object, [get_first_solution] then returns the trace that the
    latest call of [find_first_solution] returning [true] stored, and what
    the member held at the start if no call has succeeded: the empty trace
    on an object as its constructor leaves it.  The trace returned is empty
    exactly when no call has succeeded and the member was empty at the
    start, or the latest success was on a single number and so stored the
    empty trace.  (Every sequence of calls returns: [history_returns].) *)
Theorem C10_failed_search_keeps_first_solution
        (calls : list Call) (w0 w w' : world) (latest : option Success) :
  history calls None w0 = Returns (latest, w) ->
  Reducer.find_first_solution w = Returns (false, w') ->
  w' = w
  /\ Reducer.get_first_solution w' = Returns (first_solution (this w), w')
  /\ first_solution (this w)
     = match latest with
       | Some (_, tr) => tr
       | None => first_solution (this w0)
       end
  /\ (forall zs t m, this w0 = Reducer.Solution3 zs t m -> latest = None ->
        Reducer.get_first_solution w' = Returns ([], w'))
  /\ (forall zs tr, latest = Some (zs, tr) ->
        zs <> [] /\ length tr = 4 * (length zs - 1))
  /\ (first_solution (this w) = []
      <-> (latest = None /\ first_solution (this w0) = [])
          \/ (exists z, latest = Some ([z], []))).
Proof.
  intros Hh Hf.
  assert (E : w' = w).
  { rewrite find_first_solution_spec in Hf.
    destruct (spec_find_first _ _); inversion Hf; reflexivity. }
  subst w'.
  destruct (history_latest_kept (first_solution (this w0)) calls None w0
                                eq_refl) as (l & w1 & E1 & K).
  rewrite Hh in E1. inversion E1; subst l w1. clear E1.
  unfold latest_kept in K.
  split; [reflexivity|]. split; [reflexivity|].
  destruct latest as [[zs tr]|].
  - destruct K as (K1 & K2 & K3).
    split; [exact K1|]. split; [discriminate|]. split.
    + intros zs' tr' E. inversion E; subst. now split.
    + rewrite K1. split.
      * intros ->. right. simpl in K3.
        destruct zs as [|z [|z' zs]]; [contradiction| |simpl in K3; lia].
        now exists z.
      * intros [[E _]|[z E]]; [discriminate|]. now inversion E.
  - split; [exact K|]. split.
    + intros zs t m E _. unfold Reducer.get_first_solution, gets.
      rewrite K, E. reflexivity.
    + split; [discriminate|]. rewrite K. split.
      * intros E. left. now split.
      * intros [[_ E]|[z E]]; [exact E|discriminate].
Qed.

Lemma C10_failed_search_keeps_first_solution_witness :
  let tr := ["12.000000"; "12.000000"; "24.000000"; "+"]%string in
  let w0 := fresh [12; 12]%Z 24%float in
  let w := mkWorld (mkSolution [] tr 1024 [1; 1]%Z 24%float) tr in
  let latest := Some ([12; 12]%Z, tr) in
  w = w
  /\ Reducer.get_first_solution w = Returns (first_solution (this w), w)
  /\ first_solution (this w)
     = match latest with
       | Some (_, tr) => tr
       | None => first_solution (this w0)
       end
  /\ (forall zs t m, this w0 = Reducer.Solution3 zs t m -> latest = None ->
        Reducer.get_first_solution w = Returns ([], w))
  /\ (forall zs tr, latest = Some (zs, tr) ->
        zs <> [] /\ length tr = 4 * (length zs - 1))
  /\ (first_solution (this w) = []
      <-> (latest = None /\ first_solution (this w0) = [])
          \/ (exists z, latest = Some ([z], []))).
Proof.
  intros tr w0 w latest.
  apply (C10_failed_search_keeps_first_solution
           [FindFirstSolution; AssignNumbers [1; 1]%Z] w0 w w latest).
  - vm_compute. reflexivity.
  - vm_compute. reflexivity.
Defined.

(** * Further properties *)

(** X1. The all-solutions search records a trace exactly when the existence
    check returns [true]. *)
Theorem X1_find_all_nonempty_iff_exists (nums : list double) (target : double) (w : world) :
  exists b w2 found,
    Reducer.solution_exists nums target w = Returns (b, w)
    /\ Reducer.solve_all nums [] target w = Returns (tt, w2)
    /\ solutions (this w2) = solutions (this w) ++ found
    /\ (b = true <-> found <> []).
Proof.
  rewrite solution_exists_spec, solve_all_spec.
  exists (spec_exists nums target),
         (record (map (app []) (spec_find_all nums target)) w),
         (spec_find_all nums target).
  split; [reflexivity|]. split; [reflexivity|]. split.
  - rewrite solutions_record. f_equal. simpl. apply map_id.
  - rewrite spec_exists_find_first, spec_find_first_find_all.
    destruct (spec_find_all nums target); simpl; split;
      congruence.
Qed.

(** X2. A recursion allowed less than [length nums - 1] nested calls does not
    finish: the first path alone goes that deep. *)
Theorem X2_too_shallow_is_too_deep d : forall nums target w,
  d + 1 < length nums -> Reducer.solution_exists_at d nums target w = TooDeep.
Proof.
  induction d as [|d IH]; intros nums target w Hlen.
  - destruct nums as [|a [|b nums]]; simpl in Hlen; try lia.
    change (Reducer.solution_exists_at 0)
      with (Reducer.solution_exists_body (fun _ _ => too_deep)).
    unfold Reducer.solution_exists_body, size.
    replace (length (a :: b :: nums) =? 1) with false by reflexivity.
    rewrite (range_cons 0) by (simpl; lia).
    unfold bind at 1. cbn [for_return]. unfold bind at 1.
    rewrite (range_cons (0 + 1)) by (simpl; lia).
    cbn [for_return]. unfold bind. rewrite residual_loop_spec.
    reflexivity.
  - destruct nums as [|a [|b nums]]; simpl in Hlen; try lia.
    change (Reducer.solution_exists_at (S d))
      with (Reducer.solution_exists_body (Reducer.solution_exists_at d)).
    unfold Reducer.solution_exists_body, size.
    replace (length (a :: b :: nums) =? 1) with false by reflexivity.
    rewrite (range_cons 0) by (simpl; lia).
    unfold bind at 1. cbn [for_return]. unfold bind at 1.
    rewrite (range_cons (0 + 1)) by (simpl; lia).
    cbn [for_return]. unfold bind. rewrite residual_loop_spec.
    cbn [at_ nth_error Nat.add]. unfold ret at 1 2. cbv beta iota.
    rewrite IH; [reflexivity|].
    pose proof (length_reduce (a :: b :: nums) 0 1 Add ltac:(simpl; lia)) as Hred.
    unfold reduce in Hred. unfold push_back.
    rewrite !length_app in *. simpl in *. lia.
Qed.

Lemma X2_too_shallow_is_too_deep_witness :
  Reducer.solution_exists_at 0 [1; 2]%float 3%float (fresh [] 3%float) = TooDeep.
Proof.
  apply (X2_too_shallow_is_too_deep 0 [1; 2]%float 3%float (fresh [] 3%float)).
  simpl. lia.
Defined.

(** X3. [find_first_solution], called again on the same numbers and target,
    returns the same boolean and leaves the same [first_solution]. *)
Theorem X3_find_first_solution_twice w :
  exists b w1 w2,
    Reducer.find_first_solution w = Returns (b, w1)
    /\ Reducer.find_first_solution w1 = Returns (b, w2)
    /\ first_solution (this w2) = first_solution (this w1).
Proof.
  rewrite find_first_solution_spec.
  destruct (spec_find_first _ _) as [tr|] eqn:E.
  - exists true, (commit_first tr w). rewrite find_first_solution_spec.
    unfold target_of in *. simpl. rewrite E.
    eexists. repeat split.
  - exists false, w. rewrite find_first_solution_spec, E.
    eexists. repeat split.
Qed.

(** X4. [find_all_solutions] appends to [solutions] and never empties it: called
    again on the same numbers and target, it appends the same traces again. *)
Theorem X4_find_all_solutions_twice w :
  exists w1 w2 found,
    Reducer.find_all_solutions w = Returns (tt, w1)
    /\ Reducer.find_all_solutions w1 = Returns (tt, w2)
    /\ solutions (this w1) = solutions (this w) ++ found
    /\ solutions (this w2) = solutions (this w) ++ found ++ found.
Proof.
  rewrite find_all_solutions_spec.
  set (found := spec_find_all (map of_int (numbers (this w))) (target_of w)).
  exists (record found w). rewrite find_all_solutions_spec.
  destruct (record_frame found w) as (_ & _ & Hn & Ht & _).
  unfold target_of in *. rewrite Hn, Ht. fold found.
  exists (record found (record found w)), found.
  repeat split.
  - apply solutions_record.
  - rewrite !solutions_record. now rewrite app_assoc.
Qed.

(** The scenarios of the specification, and the two [main]s: that of
    [src/lib/solve_24.cpp] prints the first solution of 5, 5, 3, 2 and then
    1, and returns 1; that of [src/solve_24.cpp] returns 1 after 25 lines. *)
Example scenarios_and_mains :
  Reducer.is_valid_input (fresh [5; 5; 3; 2]%Z 24%float)
  = Returns (true, fresh [5; 5; 3; 2]%Z 24%float)
  /\ Reducer.is_valid_input (fresh [1; 1; 1; 1]%Z 24%float)
     = Returns (false, fresh [1; 1; 1; 1]%Z 24%float)
  /\ Reducer.find_all_solutions (fresh [1; 1; 1; 1]%Z 24%float)
     = Returns (tt, fresh [1; 1; 1; 1]%Z 24%float)
  /\ (exists w,
        Reducer.find_first_solution (fresh [4; 1; 8; 7]%Z 24%float) = Returns (true, w)
        /\ replays_to_bool (map of_int [4; 1; 8; 7]%Z) 24%float
                           (first_solution (this w)) = true)
  /\ (exists w,
        Reducer.main (fresh [] 0%float) = Returns (1%Z, w)
        /\ cout w
           = ["5.000000"; "5.000000"; "10.000000"; "+";
              "10.000000"; "2.000000"; "8.000000"; "-";
              "3.000000"; "8.000000"; "24.000000"; "*"; "1"]%string)
  /\ (exists w,
        Judge.main (fresh [] 0%float) = Returns (1%Z, w)
        /\ length (cout w) = 25
        /\ this w = this (fresh [] 0%float)).
Proof.
  split; [vm_compute; reflexivity|].
  split; [vm_compute; reflexivity|].
  split; [vm_compute; reflexivity|].
  split.
  { eexists. split; [vm_compute; reflexivity|]. vm_compute. reflexivity. }
  split.
  { eexists. split; [vm_compute; reflexivity|]. vm_compute. reflexivity. }
  eexists. split; [vm_compute; reflexivity|].
  split; [vm_compute; reflexivity|]. vm_compute. reflexivity.
Qed.

(** X6. The cap [max_generated] is read by no search: after
    [set_max_generated], the three searches return what they returned
    before, and store and record the same traces. *)
Theorem X6_max_generated_is_not_read (arg1 : Z) (w : world) :
  exists w' b w1 w1' w2 w2' found,
    Reducer.set_max_generated arg1 w = Returns (tt, w')
    /\ Reducer.is_valid_input w = Returns (b, w)
    /\ Reducer.is_valid_input w' = Returns (b, w')
    /\ Reducer.find_first_solution w = Returns (b, w1)
    /\ Reducer.find_first_solution w' = Returns (b, w1')
    /\ (b = true -> first_solution (this w1') = first_solution (this w1))
    /\ Reducer.find_all_solutions w = Returns (tt, w2)
    /\ Reducer.find_all_solutions w' = Returns (tt, w2')
    /\ solutions (this w2) = solutions (this w) ++ found
    /\ solutions (this w2') = solutions (this w) ++ found.
Proof.
  set (nums := map of_int (numbers (this w))).
  set (t := target (this w)).
  set (w' := mkWorld (mkSolution (solutions (this w)) (first_solution (this w))
                                 arg1 (numbers (this w)) t) (cout w)).
  assert (V : forall w0, numbers (this w0) = numbers (this w) ->
                target (this w0) = t ->
                Reducer.is_valid_input w0 = Returns (spec_exists nums t, w0)).
  { intros w0 Hn Ht. rewrite is_valid_input_spec. unfold target_of.
    now rewrite Hn, Ht. }
  assert (F : forall w0, numbers (this w0) = numbers (this w) ->
                target (this w0) = t ->
                Reducer.find_first_solution w0
                = Returns (match spec_find_first nums t with
                           | Some tr => (true, commit_first tr w0)
                           | None => (false, w0)
                           end)).
  { intros w0 Hn Ht. rewrite find_first_solution_spec. unfold target_of.
    now rewrite Hn, Ht. }
  assert (A : forall w0, numbers (this w0) = numbers (this w) ->
                target (this w0) = t ->
                Reducer.find_all_solutions w0
                = Returns (tt, record (spec_find_all nums t) w0)).
  { intros w0 Hn Ht. rewrite find_all_solutions_spec. unfold target_of.
    now rewrite Hn, Ht. }
  exists w'.
  rewrite (V w), (V w'), (F w), (F w'), (A w), (A w') by reflexivity.
  rewrite spec_exists_find_first.
  destruct (spec_find_first nums t) as [tr|].
  - exists true, (commit_first tr w), (commit_first tr w'),
           (record (spec_find_all nums t) w), (record (spec_find_all nums t) w'),
           (spec_find_all nums t).
    repeat (split; [reflexivity|]). split; rewrite solutions_record; reflexivity.
  - exists false, w, w',
           (record (spec_find_all nums t) w), (record (spec_find_all nums t) w'),
           (spec_find_all nums t).
    do 5 (split; [reflexivity|]). split; [discriminate|].
    do 2 (split; [reflexivity|]). split; rewrite solutions_record; reflexivity.
Qed.

(** ** Printing, and what each method writes *)

(** X5. [print_solutions] writes, for each stored solution in the order of
    [solutions], the line [Solution:] and then the tokens of the solution, a
    line each; it leaves the object as it was, and indexes no vector out of
    range. *)
Theorem X5_print_solutions_lines (w : world) :
  exists w',
    Reducer.print_solutions w = Returns (tt, w')
    /\ this w' = this w
    /\ cout w' = cout w ++ solution_lines (solutions (this w))
    /\ length (cout w')
       = length (cout w) + length (solutions (this w))
         + length (concat (solutions (this w))).
Proof.
  rewrite print_solutions_spec. eexists. split; [reflexivity|].
  split; [reflexivity|]. split; [reflexivity|].
  simpl. rewrite length_app. unfold solution_lines.
  induction (solutions (this w)) as [|s sols IH]; simpl.
  - lia.
  - rewrite !length_app. lia.
Qed.

(** X7. Each search writes its own member and nothing else.
    [is_valid_input] changes nothing.  [find_first_solution] leaves
    [solutions], [max_generated], [numbers] and [target]; on [true] it has
    written to [cout] the very trace it stored, a token a line, and on
    [false] nothing.  [find_all_solutions] leaves [first_solution],
    [max_generated], [numbers], [target] and [cout], and keeps what
    [solutions] held in front of what it appends. *)
Theorem X7_searches_write_their_own_member (w : world) :
  (exists b, Reducer.is_valid_input w = Returns (b, w))
  /\ (exists b w1,
         Reducer.find_first_solution w = Returns (b, w1)
         /\ solutions (this w1) = solutions (this w)
         /\ max_generated (this w1) = max_generated (this w)
         /\ numbers (this w1) = numbers (this w)
         /\ target_of w1 = target_of w
         /\ (b = true -> cout w1 = cout w ++ first_solution (this w1))
         /\ (b = false -> w1 = w))
  /\ (exists w2 found,
         Reducer.find_all_solutions w = Returns (tt, w2)
         /\ solutions (this w2) = solutions (this w) ++ found
         /\ first_solution (this w2) = first_solution (this w)
         /\ max_generated (this w2) = max_generated (this w)
         /\ numbers (this w2) = numbers (this w)
         /\ target_of w2 = target_of w
         /\ cout w2 = cout w).
Proof.
  split; [|split].
  - rewrite is_valid_input_spec. eexists. reflexivity.
  - rewrite find_first_solution_spec.
    destruct (spec_find_first _ _) as [tr|].
    + exists true, (commit_first tr w). split; [reflexivity|].
      repeat (split; [reflexivity|]). discriminate.
    + exists false, w. split; [reflexivity|].
      do 4 (split; [reflexivity|]). split; [discriminate|reflexivity].
  - rewrite find_all_solutions_spec.
    set (found := spec_find_all (map of_int (numbers (this w))) (target_of w)).
    exists (record found w), found. split; [reflexivity|].
    split; [apply solutions_record|].
    destruct (record_frame found w) as (H1 & H2 & H3 & H4 & H5).
    unfold target_of. now rewrite H1, H2, H3, H4, H5.
Qed.

(** X8. [judgePoint24] of [src/solve_24.cpp], given the numbers and the
    target of an object of [src/lib/solve_24.cpp], returns what
    [is_valid_input] and [find_first_solution] return on that object, and
    prints the lines [find_first_solution] prints; it stores nothing. *)
Theorem X8_judgePoint24_agrees_with_the_library (w : world) :
  exists b w1 w2,
    Judge.judgePoint24 (numbers (this w)) (target_of w) w = Returns (b, w1)
    /\ Reducer.is_valid_input w = Returns (b, w)
    /\ Reducer.find_first_solution w = Returns (b, w2)
    /\ this w1 = this w
    /\ cout w1 = cout w2.
Proof.
  unfold Judge.judgePoint24.
  rewrite solve_spec, is_valid_input_spec, find_first_solution_spec.
  rewrite spec_exists_find_first.
  destruct (spec_find_first _ _) as [tr|].
  - exists true, (write_lines ([] ++ tr) w), (commit_first tr w).
    repeat (split; [reflexivity|]). reflexivity.
  - exists false, w, w. repeat (split; [reflexivity|]). reflexivity.
Qed.

(** ** The number of paths *)







(** ** The order of the numbers *)

Lemma double_add_comm x y : (x + y = y + x)%float.
Proof.
  apply Prim2SF_inj. rewrite !add_spec.
  destruct (Prim2SF x) as [sx|sx| |sx mx ex], (Prim2SF y) as [sy|sy| |sy my ey];
    unfold SF64add, SFadd; try reflexivity;
    try (destruct sx, sy; reflexivity).
  cbv zeta. now rewrite (Z.min_comm ey ex), Z.add_comm.
Qed.

Lemma apply_mirror op a b : apply (mirror op) b a = apply op a b.
Proof.
  destruct op; simpl; try reflexivity.
  - apply double_add_comm.
  - apply mul_comm.
Qed.

Lemma in_paths_S_intro d nums i j op tr v :
  length nums <> 1 ->
  i < j < length nums ->
  In (tr, v) (paths d (reduce nums i j op)) ->
  In (step_tokens nums i j op ++ tr, v) (paths (S d) nums).
Proof.
  intros Hne Hij Hin. rewrite paths_S by assumption.
  apply in_flat_map. exists i. split; [apply in_range; lia|].
  apply in_flat_map. exists j. split; [apply in_range; lia|].
  apply in_flat_map. exists op. split; [apply in_operations|].
  apply in_map_iff. exists (tr, v). split; [reflexivity|assumption].
Qed.

(** Two values of a sequence are found again, at two positions, in any
    rearrangement of it. *)
Lemma two_positions (l : list double) (a b : double) (rest : list double) :
  Permutation l (a :: b :: rest) ->
  exists p q,
    p <> q /\ p < length l /\ q < length l
    /\ nth p l 0%float = a /\ nth q l 0%float = b.
Proof.
  intros H.
  destruct (Permutation_vs_cons_inv H) as (l1 & l2 & E). subst l.
  apply Permutation_sym, Permutation_cons_app_inv in H.
  assert (Hb : In b (l1 ++ l2)).
  { apply (Permutation_in b H). now left. }
  exists (length l1).
  apply in_app_or in Hb. destruct Hb as [Hb|Hb].
  - destruct (In_nth _ _ 0%float Hb) as (q & Hq & Eq).
    exists q. rewrite length_app. simpl.
    repeat split; try lia.
    + rewrite app_nth2 by lia. now rewrite Nat.sub_diag.
    + now rewrite app_nth1 by lia.
  - destruct (In_nth _ _ 0%float Hb) as (k & Hk & Ek).
    exists (length l1 + S k). rewrite length_app. simpl.
    repeat split; try lia.
    + rewrite app_nth2 by lia. now rewrite Nat.sub_diag.
    + rewrite app_nth2 by lia.
      replace (length l1 + S k - length l1) with (S k) by lia. exact Ek.
Qed.

Lemma others_any_pair l p q :
  p <> q -> p < length l -> q < length l ->
  Permutation l (nth p l 0%float :: nth q l 0%float :: others 0 l p q).
Proof.
  intros Hne Hp Hq.
  destruct (Nat.lt_ge_cases p q) as [Hlt|Hge].
  - apply others_pair. lia.
  - rewrite others_sym, perm_swap. apply others_pair. lia.
Qed.

(** A first step on a sequence is a first step on any rearrangement of it,
    up to a rearrangement of the reduced sequence. *)
Lemma step_rearranged nums nums' i j op :
  Permutation nums nums' ->
  i < j < length nums ->
  exists i' j' op',
    i' < j' < length nums'
    /\ Permutation (reduce nums i j op) (reduce nums' i' j' op').
Proof.
  intros HP Hij.
  pose proof (others_pair nums i j Hij) as Hn.
  assert (Hn' : Permutation nums'
                  (nth i nums 0%float :: nth j nums 0%float :: others 0 nums i j)).
  { now rewrite <- HP. }
  destruct (two_positions _ _ _ _ Hn') as (p & q & Hpq & Hp & Hq & Ea & Eb).
  pose proof (others_any_pair nums' p q Hpq Hp Hq) as Ho.
  rewrite Ea, Eb in Ho. rewrite Ho in Hn'.
  apply Permutation_cons_inv, Permutation_cons_inv in Hn'.
  destruct (Nat.lt_ge_cases p q) as [Hlt|Hge].
  - exists p, q, op. split; [lia|].
    unfold reduce. rewrite Ea, Eb.
    apply Permutation_app; [now symmetry|reflexivity].
  - exists q, p, (mirror op). split; [lia|].
    unfold reduce. rewrite Ea, Eb, apply_mirror, (others_sym nums' 0 q p).
    apply Permutation_app; [now symmetry|reflexivity].
Qed.

Lemma paths_rearranged d : forall nums nums' tr v,
  Permutation nums nums' ->
  In (tr, v) (paths d nums) ->
  exists tr', In (tr', v) (paths d nums').
Proof.
  induction d as [|d IH]; intros nums nums' tr v HP Hin.
  - destruct nums as [|x [|y nums]]; simpl in Hin; try contradiction.
    destruct Hin as [E|[]]. inversion E; subst.
    apply Permutation_length_1_inv in HP. subst. exists []. now left.
  - destruct (Nat.eq_dec (length nums) 1) as [E|E].
    + destruct nums as [|x [|y nums]]; try discriminate.
      destruct Hin as [E'|[]]. inversion E'; subst.
      apply Permutation_length_1_inv in HP. subst. exists []. now left.
    + apply in_paths_S in Hin; [|assumption].
      destruct Hin as (i & j & op & tr1 & Hij & -> & Hin).
      destruct (step_rearranged nums nums' i j op HP Hij)
        as (i' & j' & op' & Hij' & HP').
      destruct (IH _ _ _ _ HP' Hin) as (tr' & Hin').
      exists (step_tokens nums' i' j' op' ++ tr').
      apply in_paths_S_intro; try assumption.
      rewrite <- (Permutation_length HP). assumption.
Qed.

Lemma spec_exists_rearranged nums nums' target :
  Permutation nums nums' -> spec_exists nums target = spec_exists nums' target.
Proof.
  assert (G : forall l l', Permutation l l' ->
                spec_exists l target = true -> spec_exists l' target = true).
  { intros l l' HP H. unfold spec_exists, all_paths in *.
    apply existsb_exists in H. destruct H as ([tr v] & Hin & Hv).
    rewrite (Permutation_length HP) in Hin.
    destruct (paths_rearranged _ _ _ _ _ HP Hin) as (tr' & Hin').
    apply existsb_exists. now exists (tr', v). }
  intros HP.
  destruct (spec_exists nums target) eqn:E1, (spec_exists nums' target) eqn:E2;
    try reflexivity.
  - rewrite (G _ _ HP E1) in E2. discriminate.
  - rewrite (G _ _ (Permutation_sym HP) E2) in E1. discriminate.
Qed.

(** X10. Whether a target can be reached does not depend on the order of the
    numbers: on a rearrangement of the sequence the existence check and the
    first-solution search return the same boolean (the trace stored may
    differ), and [is_valid_input] returns the same boolean on two objects
    whose [numbers] are rearrangements of each other. *)
Theorem X10_order_of_the_numbers
        (nums nums' : list double) (target : double) (w : world)
        (zs zs' : list Z) (sols : list Trace) (first : Trace) (cap : Z)
        (out : list string) :
  Permutation nums nums' ->
  Permutation zs zs' ->
  (exists b w1 w1',
      Reducer.solution_exists nums target w = Returns (b, w)
      /\ Reducer.solution_exists nums' target w = Returns (b, w)
      /\ Reducer.solve_first nums [] target w = Returns (b, w1)
      /\ Reducer.solve_first nums' [] target w = Returns (b, w1'))
  /\ (exists b,
         Reducer.is_valid_input (mkWorld (mkSolution sols first cap zs target) out)
         = Returns (b, mkWorld (mkSolution sols first cap zs target) out)
         /\ Reducer.is_valid_input (mkWorld (mkSolution sols first cap zs' target) out)
            = Returns (b, mkWorld (mkSolution sols first cap zs' target) out)).
Proof.
  intros HP HZ. split.
  - rewrite !solution_exists_spec, !solve_first_spec.
    pose proof (spec_exists_rearranged nums nums' target HP) as E.
    rewrite !spec_exists_find_first in *.
    destruct (spec_find_first nums target) as [tr|],
             (spec_find_first nums' target) as [tr'|]; try discriminate.
    + exists true, (commit_first ([] ++ tr) w), (commit_first ([] ++ tr') w).
      repeat (split; [reflexivity|]). reflexivity.
    + exists false, w, w. repeat (split; [reflexivity|]). reflexivity.
  - rewrite !is_valid_input_spec. unfold target_of. simpl.
    rewrite (spec_exists_rearranged (map of_int zs) (map of_int zs') target).
    + eexists. split; reflexivity.
    + now apply Permutation_map.
Qed.

Lemma X10_order_of_the_numbers_witness :
  (exists b w1 w1',
      Reducer.solution_exists [6; 4]%float 24%float (fresh [] 0%float)
      = Returns (b, fresh [] 0%float)
      /\ Reducer.solution_exists [4; 6]%float 24%float (fresh [] 0%float)
         = Returns (b, fresh [] 0%float)
      /\ Reducer.solve_first [6; 4]%float [] 24%float (fresh [] 0%float)
         = Returns (b, w1)
      /\ Reducer.solve_first [4; 6]%float [] 24%float (fresh [] 0%float)
         = Returns (b, w1'))
  /\ (exists b,
         Reducer.is_valid_input (mkWorld (mkSolution [] [] 1024 [6; 4]%Z 24%float) [])
         = Returns (b, mkWorld (mkSolution [] [] 1024 [6; 4]%Z 24%float) [])
         /\ Reducer.is_valid_input (mkWorld (mkSolution [] [] 1024 [4; 6]%Z 24%float) [])
            = Returns (b, mkWorld (mkSolution [] [] 1024 [4; 6]%Z 24%float) [])).
Proof.
  apply (X10_order_of_the_numbers [6; 4]%float [4; 6]%float 24%float
                                  (fresh [] 0%float) [6; 4]%Z [4; 6]%Z
                                  [] [] 1024%Z []).
  - apply perm_swap.
  - apply perm_swap.
Defined.

(** ** A target that is not a finite number *)

Lemma wild_minus_r x y : wild y -> wild (x - y)%float.
Proof.
  intros Hy. change (x - y)%float with (eval Minus x y).
  by_kinds x y; simpl; auto;
    repeat match goal with s : bool |- _ => destruct s end; simpl; auto.
Qed.

Lemma close_wild_target v t : wild t -> close v t = false.
Proof.
  intros Hw. apply (wild_minus_r v t) in Hw.
  destruct (close v t) eqn:Hc; [|reflexivity].
  unfold close, fabs in Hc.
  rewrite ltb_spec, abs_spec, epsilon_SF in Hc.
  unfold wild, kind_of in Hw.
  destruct (Prim2SF (v - t)) as [s|s| |s m e];
    destruct Hw as [Hw|Hw]; try discriminate Hw; discriminate Hc.
Qed.

Lemma spec_exists_wild_target nums t : wild t -> spec_exists nums t = false.
Proof.
  intros Hw. destruct (spec_exists nums t) eqn:E; [|reflexivity].
  unfold spec_exists in E. apply existsb_exists in E.
  destruct E as ([tr v] & _ & Hv). unfold reaches in Hv. simpl in Hv.
  now rewrite close_wild_target in Hv.
Qed.

(** X11. An infinite or NaN target is reached by no sequence, not even
    through a division by zero: [fabs(v - target) < 1e-8] is false for every
    [v] then.  The three searches of the class report no solution and leave
    the object and the output as they were, and [judgePoint24] returns false
    and prints nothing. *)
Theorem X11_target_not_finite
        (nums : list double) (prev_ops : Trace) (w : world) :
  wild (target_of w) ->
  (forall v, close v (target_of w) = false)
  /\ Reducer.solution_exists nums (target_of w) w = Returns (false, w)
  /\ Reducer.solve_first nums prev_ops (target_of w) w = Returns (false, w)
  /\ Reducer.solve_all nums prev_ops (target_of w) w = Returns (tt, w)
  /\ Judge.solve nums prev_ops (target_of w) w = Returns (false, w)
  /\ Reducer.is_valid_input w = Returns (false, w)
  /\ Reducer.find_first_solution w = Returns (false, w)
  /\ Reducer.find_all_solutions w = Returns (tt, w)
  /\ Judge.judgePoint24 (numbers (this w)) (target_of w) w = Returns (false, w).
Proof.
  intros Hw.
  assert (E : forall l, spec_exists l (target_of w) = false)
    by (intros l; now apply spec_exists_wild_target).
  assert (F : forall l, spec_find_first l (target_of w) = None).
  { intros l. specialize (E l). rewrite spec_exists_find_first in E.
    now destruct (spec_find_first l (target_of w)). }
  assert (A : forall l, spec_find_all l (target_of w) = [])
    by (intros l; now apply spec_find_all_none).
  split; [intros v; now apply close_wild_target|].
  split; [now rewrite solution_exists_spec, E|].
  split; [now rewrite solve_first_spec, F|].
  split; [now rewrite solve_all_spec, A|].
  split; [now rewrite solve_spec, F|].
  unfold Judge.judgePoint24.
  rewrite is_valid_input_spec, find_first_solution_spec, find_all_solutions_spec,
    solve_spec, E, F, A.
  repeat split.
Qed.

Lemma X11_target_not_finite_witness :
  wild (target_of (fresh [1; 0]%Z infinity))
  /\ Reducer.is_valid_input (fresh [1; 0]%Z infinity)
     = Returns (false, fresh [1; 0]%Z infinity)
  /\ Reducer.find_all_solutions (fresh [1; 0]%Z infinity)
     = Returns (tt, fresh [1; 0]%Z infinity).
Proof.
  assert (H : wild (target_of (fresh [1; 0]%Z infinity))) by (left; reflexivity).
  pose proof (X11_target_not_finite [1; 0]%float []
                                    (fresh [1; 0]%Z infinity) H) as G.
  split; [exact H|].
  split; apply G.
Defined.

(** ** Searching, then printing *)

Lemma length_solution_lines (n : nat) (sols : list Trace) :
  Forall (fun tr => length tr = n) sols ->
  length (solution_lines sols) = length sols * (n + 1).
Proof.
  unfold solution_lines. induction 1 as [|tr sols Htr _ IH]; simpl.
  - reflexivity.
  - rewrite length_app, IH, Htr. lia.
Qed.

(** X12. [find_all_solutions] followed by [print_solutions], on an object
    whose [solutions] is still empty: the output grows by the found traces,
    each as the line [Solution:] followed by its tokens, that is by
    [4 * (n - 1) + 1] lines for each trace found on [n] numbers; and nothing
    is printed exactly when [is_valid_input] returns false. *)
Theorem X12_find_all_then_print (w : world) :
  solutions (this w) = [] ->
  exists w1 w2 b,
    Reducer.find_all_solutions w = Returns (tt, w1)
    /\ Reducer.print_solutions w1 = Returns (tt, w2)
    /\ Reducer.is_valid_input w = Returns (b, w)
    /\ this w2 = this w1
    /\ cout w2 = cout w ++ solution_lines (solutions (this w1))
    /\ length (cout w2)
       = length (cout w)
         + length (solutions (this w1))
           * (4 * (length (numbers (this w)) - 1) + 1)
    /\ (b = false <-> cout w2 = cout w).
Proof.
  intros Hempty.
  rewrite find_all_solutions_spec.
  set (nums := map of_int (numbers (this w))).
  set (found := spec_find_all nums (target_of w)).
  exists (record found w). rewrite print_solutions_spec, is_valid_input_spec.
  fold nums.
  exists (write_lines (solution_lines (solutions (this (record found w))))
                      (record found w)),
         (spec_exists nums (target_of w)).
  assert (Hsols : solutions (this (record found w)) = found).
  { now rewrite solutions_record, Hempty. }
  assert (Hcout : cout (record found w) = cout w) by apply record_frame.
  assert (Hlen : Forall (fun tr => length tr = 4 * (length (numbers (this w)) - 1))
                        found).
  { apply Forall_forall. intros tr Hin. apply in_spec_find_all in Hin.
    destruct Hin as (v & Hin & _). apply paths_grouped in Hin.
    apply grouped_length in Hin. unfold nums in Hin.
    now rewrite length_map in Hin. }
  split; [reflexivity|]. split; [reflexivity|]. split; [reflexivity|].
  split; [reflexivity|].
  simpl. rewrite Hsols, Hcout. split; [reflexivity|]. split.
  - rewrite length_app, (length_solution_lines _ _ Hlen). reflexivity.
  - rewrite spec_exists_find_first, spec_find_first_find_all. fold found.
    destruct found as [|tr found']; simpl.
    + rewrite app_nil_r. tauto.
    + split; [discriminate|]. intros E.
      apply (f_equal (@length string)) in E.
      rewrite length_app in E. simpl in E. lia.
Qed.

Lemma X12_find_all_then_print_witness :
  exists w1 w2 b,
    Reducer.find_all_solutions (fresh [12; 12]%Z 24%float) = Returns (tt, w1)
    /\ Reducer.print_solutions w1 = Returns (tt, w2)
    /\ Reducer.is_valid_input (fresh [12; 12]%Z 24%float)
       = Returns (b, fresh [12; 12]%Z 24%float)
    /\ this w2 = this w1
    /\ cout w2 = cout (fresh [12; 12]%Z 24%float)
                 ++ solution_lines (solutions (this w1))
    /\ length (cout w2)
       = length (cout (fresh [12; 12]%Z 24%float))
         + length (solutions (this w1))
           * (4 * (length (numbers (this (fresh [12; 12]%Z 24%float))) - 1) + 1)
    /\ (b = false <-> cout w2 = cout (fresh [12; 12]%Z 24%float)).
Proof.
  apply (X12_find_all_then_print (fresh [12; 12]%Z 24%float)).
  reflexivity.
Defined.
